(** * script.py of hardforkhelp: the Script codec and its stack interpreter

    A shallow embedding of [Script] (parse, raw_serialize, serialize, hash160,
    sha256, __add__, evaluate, the four is_*_script_pubkey tests and address)
    together with the properties of it that the specification relies on.

    Conventions.
    - A Python [bytes] value is a [list byte]; a [BytesIO] stream is the list of
      the bytes that have not been read yet, and [s.read(n)] splits it into
      [take n s] (what is returned, possibly short) and [drop n s].
    - A script item or a stack element is a Python [int] or a Python [bytes]:
      the type [item].
    - A raised exception is a value of [exn]; code that may raise returns an
      [outcome].
    - The methods that only read [self.items] are functions of the item list.
      [evaluate] mutates lists in place, so it runs over a store of list
      objects, in the monad [M]. *)

From Stdlib Require Import ZArith String.
From Stdlib.Strings Require Import Byte.
From stdpp Require Import prelude gmap.

Local Open Scope Z_scope.

(** ** Values *)

Definition bytes := list byte.

#[global] Instance byte_eq_dec : EqDecision byte := Byte.byte_eq_dec.

Inductive item :=
  | Int (n : Z)
  | Bytes (b : bytes).

#[global] Instance item_eq_dec : EqDecision item.
Proof. solve_decision. Defined.

Definition byte_to_Z (b : byte) : Z := Z.of_N (Byte.to_N b).

Definition byte_of_Z (z : Z) : byte :=
  match Byte.of_N (Z.to_N (z mod 256)) with
  | Some b => b
  | None => x00
  end.

(** Python's [len]. *)
Definition len {A} (l : list A) : Z := Z.of_nat (length l).

(** ** Exceptions and results *)

Inductive exn :=
  | IndexError          (* indexing or popping past the end *)
  | KeyError            (* a dict without the key *)
  | OverflowError       (* int.to_bytes of a value that does not fit *)
  | EncodingError       (* encode_varint beyond eight bytes *)
  | TruncatedInputError (* read_varint on a stream that ends too early *)
  | OpFault             (* an exception raised inside an opcode function *)
  | BadReference        (* a store location that holds no list (never raised
                           by a run that starts from allocated locations) *)
  | OutOfFuel.          (* the bound on loop iterations of the embedding was
                           reached; not a Python exception *)

Inductive outcome (A : Type) :=
  | Ok (a : A)
  | Raise (e : exn).
Arguments Ok {A} a.
Arguments Raise {A} e.

#[global] Instance outcome_ret : MRet outcome := fun A a => Ok a.
#[global] Instance outcome_bind : MBind outcome := fun A B f m =>
  match m with
  | Ok a => f a
  | Raise e => Raise e
  end.

(** ** helper.py: the varint and little-endian codec *)

(** Modelled from the spec: helper.int_to_little_endian is not among the
    sources. "fixed-width two-way conversion"; a value outside the width does
    not convert. [le_bytes] gives the [width] low-order bytes. *)
Fixpoint le_bytes (n : Z) (width : nat) : bytes :=
  match width with
  | O => []
  | S w => byte_of_Z (n mod 256) :: le_bytes (n / 256) w
  end.

(** Modelled from the spec: helper.int_to_little_endian, as Python's
    [n.to_bytes(width, 'little')]. *)
Definition int_to_little_endian (n : Z) (width : nat) : outcome bytes :=
  if (0 <=? n) && (n <? 256 ^ Z.of_nat width)
  then Ok (le_bytes n width)
  else Raise OverflowError.

(** Modelled from the spec: helper.little_endian_to_int is not among the
    sources. *)
Fixpoint little_endian_to_int (b : bytes) : Z :=
  match b with
  | [] => 0
  | x :: rest => byte_to_Z x + 256 * little_endian_to_int rest
  end.

(** Modelled from the spec: part of helper.read_varint. Reads [width] bytes
    and decodes them; a stream that ends before them is a truncated input. *)
Definition read_int (width : nat) (s : bytes) : outcome (Z * bytes) :=
  if (length s <? width)%nat
  then Raise TruncatedInputError
  else Ok (little_endian_to_int (take width s), drop width s).

(** Modelled from the spec: helper.read_varint is not among the sources.
    "reads 1 byte; if <0xfd returns it as-is; if 0xfd reads next 2 bytes
    little-endian; if 0xfe reads 4; if 0xff reads 8". *)
Definition read_varint (s : bytes) : outcome (Z * bytes) :=
  match s with
  | [] => Raise TruncatedInputError
  | i :: s1 =>
      let v := byte_to_Z i in
      if v =? 0xfd then read_int 2 s1
      else if v =? 0xfe then read_int 4 s1
      else if v =? 0xff then read_int 8 s1
      else Ok (v, s1)
  end.

(** Modelled from the spec: helper.encode_varint is not among the sources.
    "the exact inverse; fails (EncodingError) if n exceeds the 8-byte
    range". *)
Definition encode_varint (i : Z) : outcome bytes :=
  if i <? 0xfd then int_to_little_endian i 1
  else if i <? 0x10000 then b ← int_to_little_endian i 2; Ok (xfd :: b)
  else if i <? 0x100000000 then b ← int_to_little_endian i 4; Ok (xfe :: b)
  else if i <? 0x10000000000000000 then b ← int_to_little_endian i 8; Ok (xff :: b)
  else Raise EncodingError.

(** ** Script: parse and serialize *)

Record Script := mkScript { items : list item }.

(** [script.items], for where a local variable is called [items] too. *)
Abbreviation items_of := items (only parsing).

(** The body of [while count < length] in [Script.parse] (lines 79-98).
    [current[0]] raises IndexError when [s.read(1)] returned nothing;
    [s.read(n)] returns what is left when fewer than [n] bytes remain.
    Every iteration adds at least one to [count], so [length - count]
    iterations always suffice: see [parse_loop_enough_fuel]. *)
Fixpoint parse_loop (fuel : nat) (length count : Z) (s : bytes)
    (items : list item) : outcome (list item * bytes) :=
  if count <? length then
    match fuel with
    | O => Raise OutOfFuel
    | S fuel' =>
        match s with
        | [] => Raise IndexError
        | current :: s1 =>
            let count := count + 1 in
            let current_byte := byte_to_Z current in
            if (1 <=? current_byte) && (current_byte <=? 75) then
              let n := current_byte in
              parse_loop fuel' length (count + n) (drop (Z.to_nat n) s1)
                (items ++ [Bytes (take (Z.to_nat n) s1)])
            else
              let op_code := current_byte in
              parse_loop fuel' length count s1 (items ++ [Int op_code])
        end
    end
  else Ok (items, s).

(** [Script.parse] (lines 70-99): the parsed script and the rest of the
    stream. *)
Definition parse (s : bytes) : outcome (Script * bytes) :=
  '(length, s1) ← read_varint s;
  '(items, s2) ← parse_loop (Z.to_nat length) length 0 s1 [];
  Ok (mkScript items, s2).

(** The [for] loop of [Script.raw_serialize] (lines 105-117). *)
Fixpoint raw_serialize_loop (its : list item) (result : bytes) : outcome bytes :=
  match its with
  | [] => Ok result
  | Int n :: rest =>
      b ← int_to_little_endian n 1;
      raw_serialize_loop rest (result ++ b)
  | Bytes d :: rest =>
      prefix ← int_to_little_endian (len d) 1;
      raw_serialize_loop rest (result ++ (prefix ++ d))
  end.

Definition raw_serialize (self : Script) : outcome bytes :=
  raw_serialize_loop (items self) [].

(** [Script.serialize] (lines 120-126). *)
Definition serialize (self : Script) : outcome bytes :=
  result ← raw_serialize self;
  let total := len result in
  v ← encode_varint total;
  Ok (v ++ result).

(** [Script.__add__] (lines 136-137). *)
Definition add (self other : Script) : Script :=
  mkScript (items self ++ items other).

(** ** Item-shape tests

    Python's [==] between two items is structural: an [int] never equals a
    [bytes]. [items[i] == v] and [type(items[i]) == bytes and
    len(items[i]) == n] are only evaluated after the length test, so the index
    is in range whenever they are reached. *)

Definition item_is (its : list item) (i : nat) (v : item) : bool :=
  match its !! i with
  | Some x => bool_decide (x = v)
  | None => false
  end.

Definition bytes_of_len (its : list item) (i : nat) (n : Z) : bool :=
  match its !! i with
  | Some (Bytes b) => len b =? n
  | _ => false
  end.

(** [stack.pop()] and [l[:-1]] on a list value. *)
Definition but_last {A} (l : list A) : list A := take (length l - 1)%nat l.

(** Lines 218-221. *)
Definition is_p2pkh_script_pubkey (self : Script) : bool :=
  (len (items self) =? 5) && item_is (items self) 0 (Int 0x76)
  && item_is (items self) 1 (Int 0xa9)
  && bytes_of_len (items self) 2 20
  && item_is (items self) 3 (Int 0x88) && item_is (items self) 4 (Int 0xac).

(** Lines 226-228. *)
Definition is_p2sh_script_pubkey (self : Script) : bool :=
  (len (items self) =? 3) && item_is (items self) 0 (Int 0xa9)
  && bytes_of_len (items self) 1 20
  && item_is (items self) 2 (Int 0x87).

(** Lines 233-234. *)
Definition is_p2wpkh_script_pubkey (self : Script) : bool :=
  (len (items self) =? 2) && item_is (items self) 0 (Int 0x00)
  && bytes_of_len (items self) 1 20.

(** Lines 239-240. *)
Definition is_p2wsh_script_pubkey (self : Script) : bool :=
  (len (items self) =? 2) && item_is (items self) 0 (Int 0x00)
  && bytes_of_len (items self) 1 32.

(** [p2pkh_script] (lines 22-24). *)
Definition p2pkh_script (h160 : item) : Script :=
  mkScript [Int 0x76; Int 0xa9; h160; Int 0x88; Int 0xac].

(** ** The store of list objects *)

(** A location names a Python list object; the store maps the allocated
    locations to their current contents. *)
Abbreviation loc := nat (only parsing).
Abbreviation store := (gmap nat (list item)) (only parsing).

Definition M (A : Type) : Type := store → outcome A * store.

#[global] Instance M_ret : MRet M := fun A a h => (Ok a, h).
#[global] Instance M_bind : MBind M := fun A B f m h =>
  match m h with
  | (Ok a, h') => f a h'
  | (Raise e, h') => (Raise e, h')
  end.

Definition raise {A} (e : exn) : M A := fun h => (Raise e, h).

Definition lift {A} (o : outcome A) : M A := fun h => (o, h).

(** A new list object, at a location the store does not use yet. *)
Definition alloc (v : list item) : M loc := fun h =>
  let l := fresh (dom h) in (Ok l, <[l:=v]> h).

Definition get (l : loc) : M (list item) := fun h =>
  match h !! l with
  | Some v => (Ok v, h)
  | None => (Raise BadReference, h)
  end.

Definition put (l : loc) (v : list item) : M unit := fun h =>
  (Ok (), <[l:=v]> h).

(** [l[:]] *)
Definition list_copy (l : loc) : M loc := v ← get l; alloc v.

(** [l.pop(0)] *)
Definition list_pop0 (l : loc) : M item :=
  v ← get l;
  match v with
  | [] => raise IndexError
  | x :: rest => _ ← put l rest; mret x
  end.

(** [l.pop()] *)
Definition list_pop (l : loc) : M item :=
  v ← get l;
  match last v with
  | None => raise IndexError
  | Some x => _ ← put l (but_last v); mret x
  end.

(** [l.append(x)] *)
Definition list_append (l : loc) (x : item) : M unit :=
  v ← get l; put l (v ++ [x]).

(** [l.extend(xs)] *)
Definition list_extend (l : loc) (xs : list item) : M unit :=
  v ← get l; put l (v ++ xs).

(** What one pass through the body of the [while] loop of [evaluate] decides:
    a [return] out of the method, or going on with the loop. *)
Inductive flow :=
  | Return (b : bool)
  | Next.

Definition and_then (m k : M flow) : M flow :=
  r ← m;
  match r with
  | Return b => mret (Return b)
  | Next => k
  end.

Notation "m ;;; k" := (and_then m k) (at level 100, k at level 200, right associativity).

(** ** The interpreter *)

Section Interpreter.

(** The collaborators of script.py that are not among its sources: the
    opcode table and the two opcode functions of op.py that [evaluate]
    calls by name, the digests of helper.py, and the signing context of
    tx.py. An opcode function receives the stack list (and, for the
    checksig family, [tx_in.sig_hash]), mutates it in place and returns a
    truth value: here it maps the contents of the stack to the returned
    truth value and the new contents, or raises. *)
Context {sighash : Type}.

Definition opcode_function : Type :=
  list item → option sighash → outcome (bool * list item).

Variable OP_CODE_FUNCTIONS : Z → option opcode_function.
Variable OP_CODE_NAMES : Z → option string.
Variable op_hash160 : list item → outcome (bool * list item).
Variable op_equal : list item → outcome (bool * list item).
Variable helper_hash160 : bytes → bytes.
Variable helper_sha256 : bytes → bytes.

(** Modelled from the spec: tx.py is not among the sources. What [evaluate]
    uses of its [tx_in] argument; a witness program is an "ordered sequence
    of byte strings". *)
Record TxIn := mkTxIn {
  sig_hash : sighash;
  witness_program : list bytes;
}.

(** [Script.hash160] and [Script.sha256] (lines 128-134). *)
Definition hash160 (self : Script) : outcome bytes :=
  raw ← raw_serialize self; Ok (helper_hash160 raw).

Definition sha256 (self : Script) : outcome bytes :=
  raw ← raw_serialize self; Ok (helper_sha256 raw).

(** Calling an opcode function on the stack object. *)
Definition call_op (f : list item → outcome (bool * list item))
    (stack : loc) : M bool :=
  st ← get stack;
  match f st with
  | Ok (b, st') => _ ← put stack st'; mret b
  | Raise e => raise e
  end.

(** [OP_CODE_NAMES[item]] inside the [print] calls; what is printed is not
    part of the embedding. *)
Definition print_bad_op (item : Z) : M unit :=
  match OP_CODE_NAMES item with
  | Some _ => mret ()
  | None => raise KeyError
  end.

Definition is_signing_op (item : Z) : bool :=
  bool_decide (item ∈ [172; 173; 174; 175]).

(** The [int] branch of the loop body (lines 147-158). *)
Definition exec_op (tx_in : TxIn) (stack : loc) (item : Z) : M flow :=
  match OP_CODE_FUNCTIONS item with
  | None => raise KeyError
  | Some operation =>
      if is_signing_op item then
        ok ← call_op (fun st => operation st (Some (sig_hash tx_in))) stack;
        if negb ok then _ ← print_bad_op item; mret (Return false)
        else mret Next
      else
        ok ← call_op (fun st => operation st None) stack;
        if negb ok then _ ← print_bad_op item; mret (Return false)
        else mret Next
  end.

(** The condition of line 165-167, on the contents of [items]. *)
Definition p2sh_pattern (q : list item) : bool :=
  (len q =? 3) && item_is q 0 (Int 0xa9)
  && bytes_of_len q 1 20
  && item_is q 2 (Int 0x87).

(** The p2sh rule (lines 165-184); [item] is the [bytes] just pushed. *)
Definition p2sh_rule (items stack : loc) (item : bytes) : M flow :=
  q ← get items;
  if p2sh_pattern q then
    redeem_script ← lift (v ← encode_varint (len item); Ok (v ++ item));
    _ ← list_pop items;
    h160 ← list_pop items;
    _ ← list_pop items;
    ok ← call_op op_hash160 stack;
    if negb ok then mret (Return false) else
    _ ← list_append stack h160;
    ok ← call_op op_equal stack;
    if negb ok then mret (Return false) else
    top ← list_pop stack;
    if bool_decide (top ≠ Int 1) then mret (Return false) else
    '(script, _) ← lift (parse redeem_script);
    _ ← list_extend items (items_of script);
    mret Next
  else mret Next.

(** The condition of lines 187-188 and 195-196, on the contents of [stack]:
    [stack[0]] is the bottom of the stack and [stack[1]] its top. *)
Definition witness_pattern (st : list item) (n : Z) : bool :=
  (len st =? 2) && item_is st 0 (Int 0x00) && bytes_of_len st 1 n.

(** The p2wpkh rule (lines 187-192). *)
Definition p2wpkh_rule (tx_in : TxIn) (items stack : loc) : M flow :=
  st ← get stack;
  if witness_pattern st 20 then
    h160 ← list_pop stack;
    _ ← list_pop stack;
    _ ← list_extend items (Bytes <$> witness_program tx_in);
    _ ← list_extend items (items_of (p2pkh_script h160));
    mret Next
  else mret Next.

(** The p2wsh rule (lines 195-206). *)
Definition p2wsh_rule (tx_in : TxIn) (items stack : loc) : M flow :=
  st ← get stack;
  if witness_pattern st 32 then
    h256 ← list_pop stack;
    _ ← list_pop stack;
    _ ← list_extend items (Bytes <$> but_last (witness_program tx_in));
    match last (witness_program tx_in) with
    | None => raise IndexError
    | Some witness_script =>
        if bool_decide (h256 ≠ Bytes (helper_sha256 witness_script))
        then mret (Return false) else
        '(script, _) ← lift (v ← encode_varint (len witness_script);
                             parse (v ++ witness_script));
        _ ← list_extend items (items_of script);
        mret Next
    end
  else mret Next.

(** The [bytes] branch of the loop body (lines 160-206). *)
Definition push_data (tx_in : TxIn) (items stack : loc) (item : bytes)
    : M flow :=
  (_ ← list_append stack (Bytes item); mret Next) ;;;
  p2sh_rule items stack item ;;;
  p2wpkh_rule tx_in items stack ;;;
  p2wsh_rule tx_in items stack.

(** One pass through the loop body (lines 145-206). *)
Definition step (tx_in : TxIn) (items stack : loc) : M flow :=
  item ← list_pop0 items;
  match item with
  | Int n => exec_op tx_in stack n
  | Bytes b => push_data tx_in items stack b
  end.

(** [while len(items) > 0] (line 144). The rewrites put new items in the
    queue, and nothing bounds how often: [fuel] bounds the number of
    passes. *)
Fixpoint eval_loop (fuel : nat) (tx_in : TxIn) (items stack : loc)
    : M flow :=
  q ← get items;
  if 0 <? len q then
    match fuel with
    | O => raise OutOfFuel
    | S fuel' => step tx_in items stack ;;; eval_loop fuel' tx_in items stack
    end
  else mret Next.

(** After the loop (lines 207-213). *)
Definition finish (stack : loc) : M bool :=
  st ← get stack;
  if len st =? 0 then mret false else
  top ← list_pop stack;
  if bool_decide (top = Int 0) then mret false else
  mret true.

(** The loop and what follows it, from given [items] and [stack]
    objects. *)
Definition run_from (fuel : nat) (tx_in : TxIn) (items stack : loc)
    : M bool :=
  r ← eval_loop fuel tx_in items stack;
  match r with
  | Return b => mret b
  | Next => finish stack
  end.

(** [Script.evaluate] (lines 139-213); [self_items] is the list object
    that [self.items] refers to. *)
Definition evaluate (fuel : nat) (self_items : loc) (tx_in : TxIn)
    : M bool :=
  items ← list_copy self_items;
  stack ← alloc [];
  run_from fuel tx_in items stack.

(** [evaluate] of a script value: its item list is the only object of the
    store the call starts from. *)
Definition evaluate_script (fuel : nat) (self : Script) (tx_in : TxIn)
    : outcome bool * store :=
  evaluate fuel 0%nat tx_in {[ 0%nat := items self ]}.

End Interpreter.

(** ** Addresses *)

Section Address.

(** The address encoders of helper.py, which is not among the sources. *)
Context {address_string : Type}.
Variable h160_to_p2pkh_address : item → bool → address_string.
Variable h160_to_p2sh_address : item → bool → address_string.
Variable encode_bech32_checksum : bytes → bytes → address_string.

(** [self.items[i]] *)
Definition index (its : list item) (i : nat) : outcome item :=
  match its !! i with
  | Some x => Ok x
  | None => Raise IndexError
  end.

(** [b'tb'] and [b'bc'] *)
Definition bech32_prefix (testnet : bool) : bytes :=
  if testnet then [x74; x62] else [x62; x63].

(** [Script.address] (lines 242-271); [None] is Python's [None], what a
    method that ends without [return] gives. *)
Definition address (self : Script) (testnet : bool)
    : outcome (option address_string) :=
  if is_p2pkh_script_pubkey self then
    h160 ← index (items self) 2;
    Ok (Some (h160_to_p2pkh_address h160 testnet))
  else if is_p2sh_script_pubkey self then
    h160 ← index (items self) 1;
    Ok (Some (h160_to_p2sh_address h160 testnet))
  else if is_p2wpkh_script_pubkey self then
    let prefix := bech32_prefix testnet in
    witness_program ← raw_serialize self;
    Ok (Some (encode_bech32_checksum witness_program prefix))
  else if is_p2wsh_script_pubkey self then
    let prefix := bech32_prefix testnet in
    witness_program ← raw_serialize self;
    Ok (Some (encode_bech32_checksum witness_program prefix))
  else Ok None.

(** The four templates, as the specification lists them. *)
Inductive template :=
  | P2PKH (h : bytes)
  | P2SH (h : bytes)
  | P2WPKH (h : bytes)
  | P2WSH (h : bytes).

Definition template_items (t : template) : list item :=
  match t with
  | P2PKH h => [Int 0x76; Int 0xa9; Bytes h; Int 0x88; Int 0xac]
  | P2SH h => [Int 0xa9; Bytes h; Int 0x87]
  | P2WPKH h => [Int 0x00; Bytes h]
  | P2WSH h => [Int 0x00; Bytes h]
  end.

Definition template_hash_len (t : template) : Z :=
  match t with
  | P2PKH _ | P2SH _ | P2WPKH _ => 20
  | P2WSH _ => 32
  end.

Definition template_hash (t : template) : bytes :=
  match t with
  | P2PKH h | P2SH h | P2WPKH h | P2WSH h => h
  end.

(** A script matches a template when its items are exactly the template's
    and the embedded hash has the template's length. *)
Definition matches (self : Script) (t : template) : Prop :=
  items self = template_items t ∧ len (template_hash t) = template_hash_len t.

(** The address the matching template's encoder gives. *)
Definition template_address (t : template) (testnet : bool)
    : address_string :=
  match t with
  | P2PKH h => h160_to_p2pkh_address (Bytes h) testnet
  | P2SH h => h160_to_p2sh_address (Bytes h) testnet
  | P2WPKH h =>
      encode_bech32_checksum (x00 :: x14 :: h) (bech32_prefix testnet)
  | P2WSH h =>
      encode_bech32_checksum (x00 :: x20 :: h) (bech32_prefix testnet)
  end.

End Address.

(** ** The wire format, as the specification words it *)

(** "each opcode item emits one byte; each data item emits its 1-byte length
    prefix followed by raw bytes". *)
Definition spec_item_bytes (it : item) : bytes :=
  match it with
  | Int n => [byte_of_Z n]
  | Bytes d => byte_of_Z (len d) :: d
  end.

Definition spec_raw (its : list item) : bytes :=
  concat (spec_item_bytes <$> its).

(** What [parse] can yield at all: an opcode is a byte outside 1..75, a data
    item has at most 75 bytes. *)
Definition parsed_item (it : item) : bool :=
  match it with
  | Int n => (n =? 0) || ((76 <=? n) && (n <=? 255))
  | Bytes d => len d <=? 75
  end.

(** The items of a valid script, those [parse] yields from a stream that
    holds all it asks for: a data item is not empty. *)
Definition valid_item (it : item) : bool :=
  match it with
  | Int n => (n =? 0) || ((76 <=? n) && (n <=? 255))
  | Bytes d => (1 <=? len d) && (len d <=? 75)
  end.

Definition valid_script (s : Script) : bool := forallb valid_item (items s).

(** ** Stores in which [evaluate] runs its loop *)

(** The store [h] with the queue object [items] holding [q] and the stack
    object [stack] holding [st]. *)
Definition two_lists (h : gmap nat (list item)) (items stack : loc)
    (q st : list item) : gmap nat (list item) :=
  <[items:=q]> (<[stack:=st]> h).

(** A computation leaves alone every location that satisfies [P]. *)
Definition preserves {A} (P : loc → Prop) (m : M A) : Prop :=
  ∀ (h : gmap nat (list item)) (l : loc), P l → (m h).2 !! l = h !! l.

(** ** The interpreter's rules, as the specification words them *)

(** "for bytes: non-empty and not all-zero; for the literal encoded zero,
    falsy". *)
Definition spec_truthy (top : item) : bool :=
  match top with
  | Int n => negb (n =? 0)
  | Bytes b => existsb (fun x => negb (Byte.eqb x x00)) b
  end.

(** "the next three remaining unconsumed items are exactly opcode 0xa9, a
    20-byte data item, opcode 0x87". *)
Definition spec_next_three_p2sh (q : list item) : bool :=
  match q with
  | Int a :: Bytes h :: Int b :: _ => (a =? 0xa9) && (len h =? 20) && (b =? 0x87)
  | _ => false
  end.

(** "prepend the signing context's witness-program items, then prepend a
    freshly constructed P2PKH script". *)
Definition spec_p2wpkh_queue (q : list item) (witness : list bytes)
    (h160 : item) : list item :=
  items (p2pkh_script h160) ++ (Bytes <$> witness) ++ q.

(** ** A small opcode table to run examples with

    Five opcodes with their standard meaning over a stack of [int] and
    [bytes] values, truth values being the integers 1 and 0, and constant
    digests in place of the hash functions. *)

Definition demo_hash160 (b : bytes) : bytes := repeat x00 20.

Definition demo_sha256 (b : bytes) : bytes := repeat x00 32.

Definition demo_op_hash160 (st : list item) : outcome (bool * list item) :=
  match last st with
  | None => Ok (false, st)
  | Some (Int _) => Raise OpFault
  | Some (Bytes b) => Ok (true, but_last st ++ [Bytes (demo_hash160 b)])
  end.

Definition demo_op_equal (st : list item) : outcome (bool * list item) :=
  match last st, last (but_last st) with
  | Some a, Some b =>
      Ok (true, but_last (but_last st)
                ++ [Int (if bool_decide (a = b) then 1 else 0)])
  | _, _ => Ok (false, st)
  end.

Definition demo_op_equalverify (st : list item) : outcome (bool * list item) :=
  match demo_op_equal st with
  | Ok (true, st') =>
      match last st' with
      | Some (Int 1) => Ok (true, but_last st')
      | _ => Ok (false, but_last st')
      end
  | other => other
  end.

Definition demo_op_dup (st : list item) : outcome (bool * list item) :=
  match last st with
  | None => Ok (false, st)
  | Some x => Ok (true, st ++ [x])
  end.

(** A signature check that accepts every signature, and needs the digest
    capability to be passed. *)
Definition demo_op_checksig (st : list item) (sig_hash : option unit)
    : outcome (bool * list item) :=
  match sig_hash, last st, last (but_last st) with
  | None, _, _ => Raise OpFault
  | Some _, Some _, Some _ => Ok (true, but_last (but_last st) ++ [Int 1])
  | Some _, _, _ => Ok (false, st)
  end.

Definition demo_OP_CODE_FUNCTIONS (n : Z)
    : option (list item → option unit → outcome (bool * list item)) :=
  if n =? 0x00 then Some (fun st _ => Ok (true, st ++ [Int 0]))
  else if n =? 0x51 then Some (fun st _ => Ok (true, st ++ [Int 1]))
  else if n =? 0x76 then Some (fun st _ => demo_op_dup st)
  else if n =? 0x87 then Some (fun st _ => demo_op_equal st)
  else if n =? 0x88 then Some (fun st _ => demo_op_equalverify st)
  else if n =? 0xa9 then Some (fun st _ => demo_op_hash160 st)
  else if n =? 0xac then Some demo_op_checksig
  else None.

Definition demo_OP_CODE_NAMES (n : Z) : option string :=
  match demo_OP_CODE_FUNCTIONS n with
  | Some _ => Some "OP"%string
  | None => None
  end.

Definition demo_step (tx_in : @TxIn unit) (items stack : loc) : M flow :=
  step demo_OP_CODE_FUNCTIONS demo_OP_CODE_NAMES demo_op_hash160
    demo_op_equal demo_sha256 tx_in items stack.

Definition demo_evaluate (fuel : nat) (self : Script) (tx_in : @TxIn unit)
    : outcome bool * gmap nat (list item) :=
  evaluate_script demo_OP_CODE_FUNCTIONS demo_OP_CODE_NAMES demo_op_hash160
    demo_op_equal demo_sha256 fuel self tx_in.

(** Two 20-byte strings: the constant digest, and one that differs from
    it. *)
Definition zeros20 : bytes := repeat x00 20.
Definition ones20 : bytes := repeat x01 20.

(** A signing context with two witness items. *)
Definition demo_tx_in : @TxIn unit := mkTxIn tt [[x01]; [x02; x03]].

(** Address encoders that keep their arguments visible. *)
Definition demo_p2pkh_address (h160 : item) (testnet : bool) : bytes :=
  match h160 with
  | Bytes b => (if testnet then x6f else x00) :: b
  | Int _ => []
  end.

Definition demo_p2sh_address (h160 : item) (testnet : bool) : bytes :=
  match h160 with
  | Bytes b => (if testnet then xc4 else x05) :: b
  | Int _ => []
  end.

Definition demo_bech32 (program prefix : bytes) : bytes := prefix ++ program.

(** ** The other script builders *)

(** [p2sh_script] (lines 27-29). *)
Definition p2sh_script (h160 : item) : Script :=
  mkScript [Int 0xa9; h160; Int 0x87].

(** [p2wpkh_script] (lines 46-48). *)
Definition p2wpkh_script (h160 : item) : Script :=
  mkScript [Int 0x00; h160].

(** [p2wsh_script] (lines 51-53). *)
Definition p2wsh_script (h256 : item) : Script :=
  mkScript [Int 0x00; h256].

Section Multisig.

(** The points of ecc.py, which is not among the sources, and their
    [sec()] encoding. *)
Context {point : Type}.
Variable sec : point → bytes.

(** The [for] loop of [multisig_redeem_script] (lines 36-38). *)
Fixpoint multisig_points (points : list point) (items : list item)
    : list item :=
  match points with
  | [] => items
  | point :: rest => multisig_points rest (items ++ [Bytes (sec point)])
  end.

(** [multisig_redeem_script] (lines 32-43). *)
Definition multisig_redeem_script (m : Z) (points : list point) : Script :=
  let items := [Int (m + 0x50)] in
  let items := multisig_points points items in
  let items := items ++ [Int (len points + 0x50)] in
  let items := items ++ [Int 0xae] in
  mkScript items.

End Multisig.

(** ** What [raw_serialize] accepts *)

(** An item whose [int_to_little_endian(_, 1)] exists: an opcode that is a
    byte, a data item whose length is a byte. *)
Definition fits_byte (it : item) : bool :=
  match it with
  | Int n => (0 <=? n) && (n <? 256)
  | Bytes d => len d <? 256
  end.

(** [type(item) == int] *)
Definition is_int (it : item) : bool :=
  match it with
  | Int _ => true
  | Bytes _ => false
  end.

(** ** __repr__ *)

Section Repr.

Variable OP_CODE_NAMES : Z → option string.

(** One hexadecimal digit, lower case as [bytes.hex()] writes it. *)
Definition hex_digit (n : Z) : string :=
  String.substring (Z.to_nat n) 1 "0123456789abcdef".

(** [b.hex()] *)
Fixpoint hex (b : bytes) : string :=
  match b with
  | [] => ""
  | x :: rest =>
      String.append
        (String.append (hex_digit (byte_to_Z x / 16))
                       (hex_digit (byte_to_Z x mod 16)))
        (hex rest)
  end.

(** The [for] loop of [Script.__repr__] (lines 63-67). *)
Fixpoint repr_loop (its : list item) (result : string) : outcome string :=
  match its with
  | [] => Ok result
  | Int n :: rest =>
      match OP_CODE_NAMES n with
      | None => Raise KeyError
      | Some name =>
          repr_loop rest (String.append result (String.append name " "))
      end
  | Bytes d :: rest =>
      repr_loop rest (String.append result (String.append (hex d) " "))
  end.

(** [Script.__repr__] (lines 61-68). *)
Definition repr (self : Script) : outcome string :=
  repr_loop (items self) "".

End Repr.

(** ** The byte strings of ScriptTest *)

(** The script of [test_parse] and [test_serialize] (lines 277, 285), and the
    two items [test_parse] expects (lines 279, 281). *)
Definition test_script_bytes : bytes :=
  [x6a; x47; x30; x44; x02; x20; x78; x99; x53; x1a; x52; xd5; x9a; x6d;
   xe2; x00; x17; x99; x28; xca; x90; x02; x54; xa3; x6b; x8d; xff; x8b;
   xb7; x5f; x5f; x5d; x71; xb1; xcd; xc2; x61; x25; x02; x20; x08; xb4;
   x22; x69; x0b; x84; x61; xcb; x52; xc3; xcc; x30; x33; x0b; x23; xd5;
   x74; x35; x18; x72; xb7; xc3; x61; xe9; xaa; xe3; x64; x90; x71; xc1;
   xa7; x16; x01; x21; x03; x5d; x5c; x93; xd9; xac; x96; x88; x1f; x19;
   xba; x1f; x68; x6f; x15; xf0; x09; xde; xd7; xc6; x2e; xfe; x85; xa8;
   x72; xe6; xa1; x9b; x43; xc1; x5a; x29; x37].

Definition test_script_signature : bytes :=
  [x30; x44; x02; x20; x78; x99; x53; x1a; x52; xd5; x9a; x6d; xe2; x00;
   x17; x99; x28; xca; x90; x02; x54; xa3; x6b; x8d; xff; x8b; xb7; x5f;
   x5f; x5d; x71; xb1; xcd; xc2; x61; x25; x02; x20; x08; xb4; x22; x69;
   x0b; x84; x61; xcb; x52; xc3; xcc; x30; x33; x0b; x23; xd5; x74; x35;
   x18; x72; xb7; xc3; x61; xe9; xaa; xe3; x64; x90; x71; xc1; xa7; x16;
   x01].

Definition test_script_sec : bytes :=
  [x03; x5d; x5c; x93; xd9; xac; x96; x88; x1f; x19; xba; x1f; x68; x6f;
   x15; xf0; x09; xde; xd7; xc6; x2e; xfe; x85; xa8; x72; xe6; xa1; x9b;
   x43; xc1; x5a; x29; x37].

(** The two scripts of [test_p2sh] (lines 302, 306). *)
Definition test_p2sh_script_pubkey : bytes :=
  [x17; xa9; x14; x74; xd6; x91; xda; x15; x74; xe6; xb3; xc1; x92; xec;
   xfb; x52; xcc; x89; x84; xee; x7b; x6c; x56; x87].

Definition test_p2sh_script_sig : bytes :=
  [xdb; x00; x48; x30; x45; x02; x21; x00; xdc; x92; x65; x5f; xe3; x70;
   x36; xf4; x77; x56; xdb; x81; x02; xe0; xd7; xd5; xe2; x8b; x3b; xeb;
   x83; xa8; xfe; xf4; xf5; xdc; x05; x59; xbd; xdf; xb9; x4e; x02; x20;
   x5a; x36; xd4; xe4; xe6; xc7; xfc; xd1; x66; x58; xc5; x07; x83; xe0;
   x0c; x34; x16; x09; x97; x7a; xed; x3a; xd0; x09; x37; xbf; x4e; xe9;
   x42; xa8; x99; x37; x01; x48; x30; x45; x02; x21; x00; xda; x6b; xee;
   x3c; x93; x76; x62; x32; x07; x9a; x01; x63; x9d; x07; xfa; x86; x95;
   x98; x74; x97; x29; xae; x32; x3e; xab; x8e; xef; x53; x57; x7d; x61;
   x1b; x02; x20; x7b; xef; x15; x42; x9d; xca; xdc; xe2; x12; x1e; xa0;
   x7f; x23; x31; x15; xc6; xf0; x90; x34; xc0; xbe; x68; xdb; x99; x98;
   x0b; x9a; x6c; x5e; x75; x40; x22; x01; x47; x52; x21; x02; x26; x26;
   xe9; x55; xea; x6e; xa6; xd9; x88; x50; xc9; x94; xf9; x10; x7b; x03;
   x6b; x13; x34; xf1; x8c; xa8; x83; x0b; xff; xf1; x29; x5d; x21; xcf;
   xdb; x70; x21; x03; xb2; x87; xea; xf1; x22; xee; xa6; x90; x30; xa0;
   xe9; xfe; xed; x09; x6b; xed; x80; x45; xc8; xb9; x8b; xec; x45; x3e;
   x1f; xfa; xc7; xfb; xdb; xd4; xbb; x71; x52; xae].


(** * Properties *)

(** ** Bytes and little-endian integers *)

Lemma byte_to_Z_range (b : byte) : 0 ≤ byte_to_Z b < 256.
Proof.
  unfold byte_to_Z. pose proof (Byte.to_N_bounded b) as H. lia.
Qed.

Lemma byte_to_of_Z (z : Z) : byte_to_Z (byte_of_Z z) = z mod 256.
Proof.
  unfold byte_of_Z, byte_to_Z.
  pose proof (Z.mod_pos_bound z 256 eq_refl) as Hz.
  destruct (Byte.of_N (Z.to_N (z mod 256))) as [b|] eqn:E.
  - apply Byte.to_of_N in E. rewrite E. lia.
  - apply Byte.of_N_None_iff in E. lia.
Qed.

Lemma byte_of_to_Z (b : byte) : byte_of_Z (byte_to_Z b) = b.
Proof.
  unfold byte_of_Z. pose proof (byte_to_Z_range b) as H.
  rewrite Z.mod_small by lia. unfold byte_to_Z.
  rewrite N2Z.id, Byte.of_to_N. reflexivity.
Qed.

Lemma le_bytes_length (w : nat) (n : Z) : length (le_bytes n w) = w.
Proof. revert n. induction w as [|w IH]; intros n; simpl; [done|]. by rewrite IH. Qed.

Lemma little_endian_roundtrip (w : nat) (n : Z) :
  0 ≤ n < 256 ^ Z.of_nat w → little_endian_to_int (le_bytes n w) = n.
Proof.
  revert n. induction w as [|w IH]; intros n Hn.
  - simpl in *. lia.
  - cbn [le_bytes little_endian_to_int]. rewrite byte_to_of_Z.
    rewrite IH.
    + rewrite Z.mod_mod by lia. pose proof (Z.div_mod n 256 ltac:(lia)). lia.
    + rewrite Nat2Z.inj_succ, Z.pow_succ_r in Hn by lia.
      split; [apply Z.div_pos; lia|].
      apply Z.div_lt_upper_bound; lia.
Qed.

Lemma read_int_le_bytes (w : nat) (n : Z) (rest : bytes) :
  0 ≤ n < 256 ^ Z.of_nat w → read_int w (le_bytes n w ++ rest) = Ok (n, rest).
Proof.
  intros Hn. unfold read_int.
  rewrite length_app, le_bytes_length.
  destruct (Nat.ltb_spec (w + length rest) w) as [?|_]; [lia|].
  rewrite take_app_length' by (by rewrite le_bytes_length).
  rewrite drop_app_length' by (by rewrite le_bytes_length).
  by rewrite little_endian_roundtrip.
Qed.

Lemma int_to_little_endian_Ok (n : Z) (w : nat) (b : bytes) :
  int_to_little_endian n w = Ok b ↔ 0 ≤ n < 256 ^ Z.of_nat w ∧ b = le_bytes n w.
Proof.
  unfold int_to_little_endian.
  destruct (Z.leb_spec 0 n), (Z.ltb_spec n (256 ^ Z.of_nat w)); simpl;
    split; try (intros [= <-]; split; [lia|done]); try (intros [? ->]; done);
    try discriminate; intros [? _]; lia.
Qed.

(** [encode_varint] succeeds exactly on the eight-byte range. *)
Lemma encode_varint_total (n : Z) :
  0 ≤ n < 2 ^ 64 → ∃ v, encode_varint n = Ok v.
Proof.
  intros Hn. unfold encode_varint, int_to_little_endian.
  repeat match goal with
  | |- context [Z.ltb ?a ?b] => destruct (Z.ltb_spec a b)
  | |- context [Z.leb ?a ?b] => destruct (Z.leb_spec a b)
  end; simpl in *; try lia; eauto.
Qed.

Lemma encode_varint_nonempty (n : Z) (v : bytes) :
  encode_varint n = Ok v → v ≠ [].
Proof.
  unfold encode_varint, int_to_little_endian.
  repeat match goal with
  | |- context [Z.ltb ?a ?b] => destruct (Z.ltb_spec a b)
  | |- context [Z.leb ?a ?b] => destruct (Z.leb_spec a b)
  end; simpl; intros [= <-]; discriminate.
Qed.

(** [read_varint] undoes [encode_varint] and leaves the rest of the stream. *)
Lemma read_encode_varint (n : Z) (v rest : bytes) :
  encode_varint n = Ok v → read_varint (v ++ rest) = Ok (n, rest).
Proof.
  unfold encode_varint.
  destruct (Z.ltb_spec n 0xfd) as [H1|H1].
  { intros [Hn ->]%int_to_little_endian_Ok. simpl in Hn.
    cbn [le_bytes app read_varint].
    destruct Hn as [Hn _].
    rewrite byte_to_of_Z, Z.mod_mod, Z.mod_small by lia.
    destruct (Z.eqb_spec n 253); [lia|].
    destruct (Z.eqb_spec n 254); [lia|].
    destruct (Z.eqb_spec n 255); [lia|]. done. }
  destruct (Z.ltb_spec n 0x10000) as [H2|H2].
  { destruct (int_to_little_endian n 2) as [b|] eqn:E; [|done].
    apply int_to_little_endian_Ok in E as [Hn ->]. intros [= <-].
    by apply (read_int_le_bytes 2). }
  destruct (Z.ltb_spec n 0x100000000) as [H3|H3].
  { destruct (int_to_little_endian n 4) as [b|] eqn:E; [|done].
    apply int_to_little_endian_Ok in E as [Hn ->]. intros [= <-].
    by apply (read_int_le_bytes 4). }
  destruct (Z.ltb_spec n 0x10000000000000000) as [H4|H4]; [|done].
  destruct (int_to_little_endian n 8) as [b|] eqn:E; [|done].
  apply int_to_little_endian_Ok in E as [Hn ->]. intros [= <-].
  by apply (read_int_le_bytes 8).
Qed.

(** ** raw_serialize *)

Lemma byte_of_Z_mod (z : Z) : byte_of_Z (z mod 256) = byte_of_Z z.
Proof. unfold byte_of_Z. by rewrite Z.mod_mod by lia. Qed.

Lemma int_to_little_endian_1 (n : Z) :
  int_to_little_endian n 1 =
    if (0 <=? n) && (n <? 256) then Ok [byte_of_Z n] else Raise OverflowError.
Proof.
  unfold int_to_little_endian. cbn [le_bytes]. by rewrite byte_of_Z_mod.
Qed.

(** The accumulator of the loop is a prefix of its result. *)
Lemma raw_serialize_loop_acc (its : list item) (acc : bytes) :
  raw_serialize_loop its acc = (r ← raw_serialize_loop its []; Ok (acc ++ r)).
Proof.
  revert acc. induction its as [|[n|d] its IH]; intros acc; simpl.
  - by rewrite app_nil_r.
  - destruct (int_to_little_endian n 1) as [b|e]; simpl; [|done].
    rewrite (IH (acc ++ b)), (IH b).
    destruct (raw_serialize_loop its []); simpl; [|done]. by rewrite <- app_assoc.
  - destruct (int_to_little_endian (len d) 1) as [b|e]; simpl; [|done].
    rewrite (IH (acc ++ b ++ d)), (IH (b ++ d)).
    destruct (raw_serialize_loop its []); simpl; [|done]. by rewrite <- !app_assoc.
Qed.

Lemma raw_serialize_loop_app (xs ys : list item) (acc : bytes) :
  raw_serialize_loop (xs ++ ys) acc =
    (r ← raw_serialize_loop xs acc; raw_serialize_loop ys r).
Proof.
  revert acc. induction xs as [|[n|d] xs IH]; intros acc; simpl; [done| |].
  - destruct (int_to_little_endian n 1); simpl; [apply IH|done].
  - destruct (int_to_little_endian (len d) 1); simpl; [apply IH|done].
Qed.

(** When the loop returns, it returns the encoding the specification
    describes. *)
Lemma raw_serialize_loop_spec (its : list item) (acc r : bytes) :
  raw_serialize_loop its acc = Ok r → r = acc ++ spec_raw its.
Proof.
  revert acc. induction its as [|[n|d] its IH]; intros acc; simpl.
  - intros [= <-]. by rewrite app_nil_r.
  - rewrite int_to_little_endian_1.
    destruct ((0 <=? n) && (n <? 256)); simpl; [|done].
    intros ->%IH. unfold spec_raw. simpl. by rewrite <- app_assoc.
  - rewrite int_to_little_endian_1.
    destruct ((0 <=? len d) && (len d <? 256)); simpl; [|done].
    intros ->%IH. unfold spec_raw. simpl. by rewrite <- app_assoc.
Qed.

Lemma valid_script_cons (it : item) (its : list item) :
  valid_script (mkScript (it :: its)) = true ↔
  valid_item it = true ∧ valid_script (mkScript its) = true.
Proof. unfold valid_script. simpl. apply andb_true_iff. Qed.

Lemma valid_script_app (xs ys : list item) :
  valid_script (mkScript (xs ++ ys)) = true ↔
  valid_script (mkScript xs) = true ∧ valid_script (mkScript ys) = true.
Proof. unfold valid_script. simpl. rewrite forallb_app. apply andb_true_iff. Qed.

Lemma valid_item_Int (n : Z) :
  valid_item (Int n) = true ↔ n = 0 ∨ 76 ≤ n ≤ 255.
Proof. unfold valid_item. lia. Qed.

Lemma valid_item_Bytes (d : bytes) :
  valid_item (Bytes d) = true ↔ 1 ≤ len d ≤ 75.
Proof. unfold valid_item. lia. Qed.

(** A valid script always serializes. *)
Lemma raw_serialize_loop_valid (its : list item) (acc : bytes) :
  valid_script (mkScript its) = true →
  raw_serialize_loop its acc = Ok (acc ++ spec_raw its).
Proof.
  revert acc. induction its as [|it its IH]; intros acc.
  - intros _. simpl. by rewrite app_nil_r.
  - intros [Hit Hits]%valid_script_cons. destruct it as [n|d]; simpl.
    + apply valid_item_Int in Hit. rewrite int_to_little_endian_1.
      replace ((0 <=? n) && (n <? 256)) with true by lia. simpl.
      rewrite IH by done. unfold spec_raw. simpl. by rewrite <- app_assoc.
    + apply valid_item_Bytes in Hit. rewrite int_to_little_endian_1.
      replace ((0 <=? len d) && (len d <? 256)) with true by lia. simpl.
      rewrite IH by done. unfold spec_raw. simpl. by rewrite <- app_assoc.
Qed.

Lemma spec_raw_app (xs ys : list item) :
  spec_raw (xs ++ ys) = spec_raw xs ++ spec_raw ys.
Proof. unfold spec_raw. by rewrite fmap_app, concat_app. Qed.

Lemma spec_raw_cons (it : item) (its : list item) :
  spec_raw (it :: its) = spec_item_bytes it ++ spec_raw its.
Proof. done. Qed.

Lemma spec_item_bytes_len (it : item) : 1 ≤ len (spec_item_bytes it).
Proof. destruct it; unfold len; simpl; lia. Qed.

Lemma spec_raw_len_items (its : list item) : len its ≤ len (spec_raw its).
Proof.
  induction its as [|it its IH]; [done|].
  rewrite spec_raw_cons. unfold len in *. rewrite length_app. simpl.
  pose proof (spec_item_bytes_len it). unfold len in *. lia.
Qed.

(** ** parse: how the loop moves *)

Lemma parse_loop_exit (fuel : nat) (length count : Z) (s : bytes)
    (acc : list item) :
  length ≤ count → parse_loop fuel length count s acc = Ok (acc, s).
Proof.
  intros H. destruct fuel; simpl;
    destruct (Z.ltb_spec count length); done || lia.
Qed.

Lemma parse_loop_step (fuel : nat) (length count : Z) (c : byte) (s1 : bytes)
    (acc : list item) :
  count < length →
  parse_loop (S fuel) length count (c :: s1) acc =
    if (1 <=? byte_to_Z c) && (byte_to_Z c <=? 75) then
      parse_loop fuel length (count + 1 + byte_to_Z c)
        (drop (Z.to_nat (byte_to_Z c)) s1)
        (acc ++ [Bytes (take (Z.to_nat (byte_to_Z c)) s1)])
    else parse_loop fuel length (count + 1) s1 (acc ++ [Int (byte_to_Z c)]).
Proof.
  intros H. cbn [parse_loop]. by destruct (Z.ltb_spec count length); [|lia].
Qed.

Lemma parse_loop_stream_end (fuel : nat) (length count : Z) (acc : list item) :
  count < length → parse_loop (S fuel) length count [] acc = Raise IndexError.
Proof.
  intros H. cbn [parse_loop]. by destruct (Z.ltb_spec count length); [|lia].
Qed.

(** The loop never stops for lack of fuel when it is given [length - count]
    passes. *)
Lemma parse_loop_enough_fuel (fuel : nat) (length count : Z) (s : bytes)
    (acc : list item) :
  (Z.to_nat (length - count) ≤ fuel)%nat →
  parse_loop fuel length count s acc ≠ Raise OutOfFuel.
Proof.
  revert count s acc. induction fuel as [|fuel IH]; intros count s acc Hf.
  - rewrite parse_loop_exit by lia. done.
  - destruct (Z.lt_ge_cases count length) as [Hlt|Hge];
      [|by rewrite parse_loop_exit].
    destruct s as [|c s1]; [by rewrite parse_loop_stream_end|].
    rewrite parse_loop_step by done.
    pose proof (byte_to_Z_range c).
    destruct ((1 <=? byte_to_Z c) && (byte_to_Z c <=? 75)); apply IH; lia.
Qed.

Lemma parse_enough_fuel (s : bytes) : parse s ≠ Raise OutOfFuel.
Proof.
  unfold parse. destruct (read_varint s) as [[length s1]|e] eqn:E; simpl.
  - pose proof (parse_loop_enough_fuel (Z.to_nat length) length 0 s1 []) as H.
    destruct (parse_loop _ _ _ _ _) as [[its s2]|e]; simpl; [done|].
    intros [= ->]. apply H; [lia|done].
  - intros [= ->]. revert E. unfold read_varint, read_int.
    destruct s; [done|].
    repeat match goal with
    | |- context [if ?b then _ else _] => destruct b
    end; done.
Qed.

(** Whatever [parse] returns is made of items it can yield, and such a
    script is valid as soon as none of its data items is empty. *)
Lemma parse_loop_parsed_items (fuel : nat) (length count : Z) (s rest : bytes)
    (acc its : list item) :
  forallb parsed_item acc = true →
  parse_loop fuel length count s acc = Ok (its, rest) →
  forallb parsed_item its = true.
Proof.
  revert count s acc. induction fuel as [|fuel IH]; intros count s acc Hacc.
  - simpl. destruct (Z.ltb_spec count length); [done|]. by intros [= <- <-].
  - destruct (Z.lt_ge_cases count length) as [Hlt|Hge].
    2:{ rewrite parse_loop_exit by done. by intros [= <- <-]. }
    destruct s as [|c s1]; [by rewrite parse_loop_stream_end|].
    rewrite parse_loop_step by done.
    pose proof (byte_to_Z_range c) as Hc.
    destruct (Z.leb_spec 1 (byte_to_Z c)), (Z.leb_spec (byte_to_Z c) 75);
      simpl; apply IH; rewrite forallb_app, Hacc; simpl;
      rewrite andb_true_r.
    + apply Z.leb_le. unfold len. rewrite length_take. lia.
    + lia.
    + lia.
    + lia.
Qed.

Lemma parse_parsed_items (s rest : bytes) (x : Script) :
  parse s = Ok (x, rest) → forallb parsed_item (items x) = true.
Proof.
  unfold parse. destruct (read_varint s) as [[length s1]|e]; [|done]. simpl.
  destruct (parse_loop _ _ _ _ _) as [[its s2]|e] eqn:E; [|done]. simpl.
  intros [= <- <-]. by apply parse_loop_parsed_items in E.
Qed.

Lemma valid_item_parsed (it : item) :
  valid_item it = true ↔ parsed_item it = true ∧ it ≠ Bytes [].
Proof.
  destruct it as [n|d]; simpl.
  - split; [by intros ->|by intros [-> _]].
  - rewrite andb_true_iff. split.
    + intros [H1 H2]. split; [done|]. intros [= ->]. done.
    + intros [H Hd]. split; [|done]. apply Z.leb_le. unfold len.
      destruct d; [done|]. simpl. lia.
Qed.

(** Reading the encoding of valid items: one pass per item. *)
Lemma parse_loop_items (its : list item) (fuel : nat) (length count : Z)
    (s : bytes) (acc : list item) :
  valid_script (mkScript its) = true →
  count + len (spec_raw its) ≤ length →
  (List.length its ≤ fuel)%nat →
  parse_loop fuel length count (spec_raw its ++ s) acc =
    parse_loop (fuel - List.length its) length (count + len (spec_raw its)) s
      (acc ++ its).
Proof.
  revert fuel count acc.
  induction its as [|it its IH]; intros fuel count acc Hv Hlen Hfuel.
  - simpl. unfold len. simpl.
    by rewrite Nat.sub_0_r, Z.add_0_r, app_nil_r.
  - apply valid_script_cons in Hv as [Hit Hits].
    rewrite spec_raw_cons in *. unfold len in Hlen. rewrite length_app in Hlen.
    pose proof (spec_item_bytes_len it) as H1. unfold len in H1.
    destruct fuel as [|fuel]; [simpl in Hfuel; lia|].
    simpl in Hfuel.
    replace (S fuel - List.length (it :: its))%nat
      with (fuel - List.length its)%nat by (simpl; lia).
    replace (count + len (spec_item_bytes it ++ spec_raw its))
      with (count + len (spec_item_bytes it) + len (spec_raw its))
      by (unfold len; rewrite length_app; lia).
    replace (acc ++ it :: its) with ((acc ++ [it]) ++ its)
      by (by rewrite <- app_assoc).
    destruct it as [n|d].
    + apply valid_item_Int in Hit. cbn [spec_item_bytes app].
      rewrite parse_loop_step by lia.
      rewrite byte_to_of_Z, Z.mod_small by lia.
      replace ((1 <=? n) && (n <=? 75)) with false by lia.
      rewrite IH; [f_equal; unfold len; simpl; lia | done | | lia].
      unfold len in *. simpl in Hlen. lia.
    + apply valid_item_Bytes in Hit. cbn [spec_item_bytes app].
      rewrite parse_loop_step by lia.
      rewrite byte_to_of_Z, Z.mod_small by lia.
      replace ((1 <=? len d) && (len d <=? 75)) with true by lia.
      replace (Z.to_nat (len d)) with (List.length d) by (unfold len; lia).
      rewrite <- (app_assoc d), take_app_length, drop_app_length.
      rewrite IH; [f_equal; unfold len; simpl; lia | done | | lia].
      unfold len in *. simpl in Hlen. lia.
Qed.

Lemma but_last_snoc {A} (l : list A) (x : A) : but_last (l ++ [x]) = l.
Proof.
  unfold but_last. rewrite length_app. simpl.
  replace (length l + 1 - 1)%nat with (length l) by lia.
  apply take_app_length.
Qed.

Lemma but_last_app {A} (l1 l2 : list A) :
  l2 ≠ [] → but_last (l1 ++ l2) = l1 ++ but_last l2.
Proof.
  intros H. unfold but_last. rewrite length_app.
  destruct l2 as [|x l2]; [done|]. simpl.
  rewrite take_app_ge by lia. f_equal. f_equal. lia.
Qed.

Lemma but_last_length {A} (l : list A) :
  length (but_last l) = (length l - 1)%nat.
Proof. unfold but_last. rewrite length_take. lia. Qed.

(** How far the loop advances the stream: by the final value of [count], or
    to the end of the stream when the last data item was cut short. The loop
    stops at the first [count] that reaches [length], which the last item
    read may overshoot by up to 75. *)
Lemma parse_loop_consumed (fuel : nat) (length count : Z) (s rest : bytes)
    (acc its : list item) :
  parse_loop fuel length count s acc = Ok (its, rest) →
  ∃ count',
    rest = drop (Z.to_nat (count' - count)) s
    ∧ count ≤ count'
    ∧ (count < length → length ≤ count' ≤ length + 75)
    ∧ (length ≤ count → count' = count).
Proof.
  revert count s acc. induction fuel as [|fuel IH]; intros count s acc.
  - simpl. destruct (Z.ltb_spec count length); [done|].
    intros [= <- <-]. exists count. rewrite Z.sub_diag. simpl.
    repeat split; lia.
  - destruct (Z.lt_ge_cases count length) as [Hlt|Hge].
    2:{ rewrite parse_loop_exit by done. intros [= <- <-]. exists count.
        rewrite Z.sub_diag. simpl. repeat split; lia. }
    destruct s as [|c s1]; [by rewrite parse_loop_stream_end|].
    rewrite parse_loop_step by done.
    pose proof (byte_to_Z_range c) as Hc.
    destruct (Z.leb_spec 1 (byte_to_Z c)), (Z.leb_spec (byte_to_Z c) 75);
      simpl; intros (count' & -> & Hle & Hin & Hout)%IH; exists count';
      (split; [|lia]).
    + rewrite drop_drop.
      replace (Z.to_nat (count' - count))
        with (S (Z.to_nat (byte_to_Z c) + Z.to_nat (count' - (count + 1 + byte_to_Z c))))
        by lia.
      done.
    + replace (Z.to_nat (count' - count))
        with (S (Z.to_nat (count' - (count + 1)))) by lia. done.
    + replace (Z.to_nat (count' - count))
        with (S (Z.to_nat (count' - (count + 1)))) by lia. done.
    + replace (Z.to_nat (count' - count))
        with (S (Z.to_nat (count' - (count + 1)))) by lia. done.
Qed.

Lemma read_varint_nonneg (s s1 : bytes) (n : Z) :
  read_varint s = Ok (n, s1) → 0 ≤ n.
Proof.
  assert (Hle : ∀ b, 0 ≤ little_endian_to_int b).
  { induction b as [|x b IH]; simpl; [done|].
    pose proof (byte_to_Z_range x). lia. }
  unfold read_varint, read_int. destruct s as [|i s]; [done|].
  pose proof (byte_to_Z_range i).
  repeat match goal with
  | |- context [if ?b then _ else _] => destruct b
  end; intros [= <- <-]; try apply Hle; lia.
Qed.

(** ** The codec claims *)

(** C4. A valid script (opcode items outside 1..75 and within a byte, data
    items of 1 to 75 bytes, an encoding that fits a varint) serializes to
    [encode_varint] of the total length followed by one byte per opcode item
    and a one-byte length prefix plus the raw bytes per data item, and
    parsing these bytes gives the script back item for item, leaving what
    follows them in the stream. *)
Theorem parse_serialize_roundtrip (x : Script) (rest : bytes) :
  valid_script x = true →
  len (spec_raw (items x)) < 2 ^ 64 →
  ∃ v, encode_varint (len (spec_raw (items x))) = Ok v
     ∧ serialize x = Ok (v ++ spec_raw (items x))
     ∧ parse ((v ++ spec_raw (items x)) ++ rest) = Ok (x, rest).
Proof.
  destruct x as [its]. cbn [items]. intros Hv Hsize.
  destruct (encode_varint_total (len (spec_raw its))) as [v Hvar];
    [unfold len in *; lia|].
  exists v. split; [done|]. split.
  - unfold serialize, raw_serialize. cbn [items].
    rewrite raw_serialize_loop_valid by done. simpl. by rewrite Hvar.
  - unfold parse. rewrite <- app_assoc.
    rewrite (read_encode_varint _ _ _ Hvar). simpl.
    rewrite parse_loop_items; [|done|lia|].
    + rewrite parse_loop_exit by lia. done.
    + pose proof (spec_raw_len_items its). unfold len in *. lia.
Qed.

Lemma parse_serialize_roundtrip_witness :
  parse ([x19; x76; xa9; x14;
          xbc; x3b; x65; x4d; xca; x7e; x56; xb0; x4d; xca;
          x18; xf2; x56; x6c; xda; xf0; x2e; x8d; x9a; xda;
          x88; xac] ++ [xff])
  = Ok (p2pkh_script (Bytes
          [xbc; x3b; x65; x4d; xca; x7e; x56; xb0; x4d; xca;
           x18; xf2; x56; x6c; xda; xf0; x2e; x8d; x9a; xda]), [xff]).
Proof.
  destruct (parse_serialize_roundtrip
    (p2pkh_script (Bytes
          [xbc; x3b; x65; x4d; xca; x7e; x56; xb0; x4d; xca;
           x18; xf2; x56; x6c; xda; xf0; x2e; x8d; x9a; xda])) [xff])
    as (v & Hv & _ & Hparse); [reflexivity|reflexivity|].
  vm_compute in Hv. injection Hv as <-. exact Hparse.
Defined.

(** C5 (the claim as stated fails). Cutting the last byte off the
    serialization of a script that ends in a data item does not make [parse]
    fail: the script [02 01 02] serializes to [03 02 01 02], and parsing
    [03 02 01] returns the one-item script [01]. *)
Lemma parse_truncated_silent_short_result :
  serialize (mkScript [Bytes [x01; x02]]) = Ok [x03; x02; x01; x02]
  ∧ parse (but_last [x03; x02; x01; x02])
    = Ok (mkScript [Bytes [x01]], []).
Proof. split; reflexivity. Qed.

(** C5, amended. For a valid script, parsing its serialization without the
    last byte fails when the script is empty (the varint is missing) or ends
    in an opcode item (the control byte is missing: an index fault), and
    returns a script whose last data item lacks its last byte when the
    script ends in a data item. *)
Theorem parse_truncated (x : Script) (bs : bytes) :
  valid_script x = true →
  serialize x = Ok bs →
  (items x = [] → parse (but_last bs) = Raise TruncatedInputError)
  ∧ (∀ its n, items x = its ++ [Int n] →
       parse (but_last bs) = Raise IndexError)
  ∧ (∀ its d, items x = its ++ [Bytes d] →
       parse (but_last bs) = Ok (mkScript (its ++ [Bytes (but_last d)]), [])).
Proof.
  destruct x as [xs]. cbn [items]. intros Hv.
  unfold serialize, raw_serialize. cbn [items].
  rewrite raw_serialize_loop_valid by done. cbn [mbind outcome_bind app].
  destruct (encode_varint (len (spec_raw xs))) as [v|e] eqn:Hvar; [|done].
  intros [= <-]. pose proof (encode_varint_nonempty _ _ Hvar) as Hne.
  split; [|split].
  - intros ->. revert Hvar. vm_compute. by intros [= <-].
  - intros its n ->. apply valid_script_app in Hv as [Hits Hn].
    rewrite spec_raw_app in *.
    change (spec_raw [Int n]) with [byte_of_Z n] in *.
    rewrite app_assoc, but_last_snoc.
    unfold parse. rewrite (read_encode_varint _ _ _ Hvar). simpl.
    replace (spec_raw its) with (spec_raw its ++ []) at 3 by apply app_nil_r.
    pose proof (spec_raw_len_items its) as Hl. unfold len in *.
    rewrite length_app in *. cbn [spec_raw fmap list_fmap concat] in *.
    simpl in *.
    rewrite parse_loop_items; [|done|unfold len; lia|lia].
    replace (Z.to_nat (Z.of_nat (length (spec_raw its) + 1)) - length its)%nat
      with (S (length (spec_raw its) - length its)) by lia.
    by rewrite parse_loop_stream_end by (unfold len; lia).
  - intros its d ->. apply valid_script_app in Hv as [Hits Hd].
    apply valid_script_cons in Hd as [Hd%valid_item_Bytes _].
    rewrite spec_raw_app in *.
    assert (Hlast : spec_raw [Bytes d] = byte_of_Z (len d) :: d)
      by (unfold spec_raw; simpl; by rewrite app_nil_r).
    rewrite Hlast in *.
    assert (Hd' : d ≠ []) by (intros ->; unfold len in Hd; simpl in Hd; lia).
    replace (v ++ spec_raw its ++ byte_of_Z (len d) :: d)
      with ((v ++ spec_raw its ++ [byte_of_Z (len d)]) ++ d)
      by (by rewrite <- !app_assoc).
    rewrite but_last_app by done. rewrite <- !app_assoc. cbn [app].
    unfold parse. rewrite (read_encode_varint _ _ _ Hvar). simpl.
    pose proof (spec_raw_len_items its) as Hl. unfold len in Hl, Hd.
    rewrite parse_loop_items;
      [|done|unfold len; rewrite length_app; simpl; lia
       |unfold len; rewrite length_app; simpl; lia].
    replace (Z.to_nat (len (spec_raw its ++ byte_of_Z (len d) :: d))
             - length its)%nat
      with (S (length (spec_raw its) + length d - length its))
      by (unfold len; rewrite length_app; simpl; lia).
    rewrite parse_loop_step
      by (unfold len; rewrite length_app; simpl; lia).
    rewrite byte_to_of_Z, Z.mod_small by (unfold len; lia).
    replace ((1 <=? len d) && (len d <=? 75)) with true by (unfold len; lia).
    rewrite parse_loop_exit by (unfold len; rewrite length_app; simpl; lia).
    rewrite take_ge, drop_ge
      by (rewrite but_last_length; unfold len; lia).
    done.
Qed.

Lemma parse_truncated_witness :
  parse (but_last [x03; x76; xa9; x87]) = Raise IndexError
  ∧ parse (but_last [x04; x76; x02; x01; x02])
    = Ok (mkScript [Int 0x76; Bytes [x01]], []).
Proof.
  split.
  - apply (proj1 (proj2 (parse_truncated
             (mkScript [Int 0x76; Int 0xa9; Int 0x87])
             [x03; x76; xa9; x87] eq_refl eq_refl))
             [Int 0x76; Int 0xa9] 0x87).
    reflexivity.
  - apply (proj2 (proj2 (parse_truncated
             (mkScript [Int 0x76; Bytes [x01; x02]])
             [x04; x76; x02; x01; x02] eq_refl eq_refl))
             [Int 0x76] [x01; x02]).
    reflexivity.
Defined.

(** C6 (the claim as stated fails). The stream [01 02 aa bb] declares a
    length of one byte; [parse] returns with the two-byte data item and has
    consumed three bytes after the varint. *)
Lemma parse_consumes_more_than_declared :
  read_varint [x01; x02; xaa; xbb] = Ok (1, [x02; xaa; xbb])
  ∧ parse [x01; x02; xaa; xbb] = Ok (mkScript [Bytes [xaa; xbb]], [])
  ∧ len [x02; xaa; xbb] - len (@nil byte) ≠ 1.
Proof. repeat split. unfold len. simpl. lia. Qed.

(** C6, amended. [parse] reads a varint length and then reads items until
    the number of bytes asked for reaches that length: each pass reads one
    control byte; a value of 1 to 75 makes the following that many bytes (or
    as many as the stream still has) one data item, any other value is
    stored as an opcode item. When [parse] returns, the stream has advanced
    past the varint by [count] bytes, or to its end, where [count] is at
    least the declared length and at most 75 more, and is zero for a
    declared length of zero. *)
Theorem parse_reads_until_length :
  (∀ (fuel : nat) (length count : Z) (c : byte) (s1 : bytes) (acc : list item),
     count < length →
     parse_loop (S fuel) length count (c :: s1) acc =
       if (1 <=? byte_to_Z c) && (byte_to_Z c <=? 75) then
         parse_loop fuel length (count + 1 + byte_to_Z c)
           (drop (Z.to_nat (byte_to_Z c)) s1)
           (acc ++ [Bytes (take (Z.to_nat (byte_to_Z c)) s1)])
       else parse_loop fuel length (count + 1) s1 (acc ++ [Int (byte_to_Z c)]))
  ∧ (∀ (s s1 rest : bytes) (length : Z) (x : Script),
       read_varint s = Ok (length, s1) →
       parse s = Ok (x, rest) →
       ∃ count, rest = drop (Z.to_nat count) s1
              ∧ length ≤ count ≤ length + 75
              ∧ (length = 0 → count = 0)).
Proof.
  split; [apply parse_loop_step|].
  intros s s1 rest length x Hvar. unfold parse. rewrite Hvar. simpl.
  destruct (parse_loop _ _ _ _ _) as [[its s2]|e] eqn:Hloop; simpl; [|done].
  intros [= <- <-].
  apply parse_loop_consumed in Hloop as (count & -> & Hle & Hin & Hout).
  apply read_varint_nonneg in Hvar.
  exists count. rewrite Z.sub_0_r. repeat split; lia.
Qed.

Lemma parse_reads_until_length_witness :
  ∃ count, @nil byte = drop (Z.to_nat count) [x02; xaa; xbb]
         ∧ 1 ≤ count ≤ 1 + 75 ∧ (1 = 0 → count = 0).
Proof.
  exact (proj2 parse_reads_until_length [x01; x02; xaa; xbb] [x02; xaa; xbb]
           [] 1 (mkScript [Bytes [xaa; xbb]]) eq_refl eq_refl).
Defined.

(** C10. The items of [a + b] are the items of [a] followed by those of [b];
    its raw serialization is the raw serialization of [a] followed by that
    of [b] (and raises when either of them does), and its hash160 and sha256
    are the digests of that concatenation. *)
Theorem add_is_serialization_homomorphism
    (helper_hash160 helper_sha256 : bytes → bytes) (a b : Script) :
  items (add a b) = items a ++ items b
  ∧ raw_serialize (add a b)
    = (ra ← raw_serialize a; rb ← raw_serialize b; Ok (ra ++ rb))
  ∧ hash160 helper_hash160 (add a b)
    = (ra ← raw_serialize a; rb ← raw_serialize b;
       Ok (helper_hash160 (ra ++ rb)))
  ∧ sha256 helper_sha256 (add a b)
    = (ra ← raw_serialize a; rb ← raw_serialize b;
       Ok (helper_sha256 (ra ++ rb))).
Proof.
  assert (Hraw : raw_serialize (add a b)
    = (ra ← raw_serialize a; rb ← raw_serialize b; Ok (ra ++ rb))).
  { unfold raw_serialize, add. cbn [items].
    rewrite raw_serialize_loop_app.
    destruct (raw_serialize_loop (items a) []) as [ra|e]; simpl; [|done].
    apply raw_serialize_loop_acc. }
  split; [done|]. split; [done|].
  unfold hash160, sha256. rewrite Hraw.
  destruct (raw_serialize a) as [ra|e]; simpl; [|done].
  destruct (raw_serialize b) as [rb|e]; simpl; done.
Qed.

(** ** address *)

Lemma is_p2pkh_shape (self : Script) :
  is_p2pkh_script_pubkey self = true ↔ ∃ h, matches self (P2PKH h).
Proof.
  destruct self as [its]. unfold is_p2pkh_script_pubkey, matches. cbn [items].
  split.
  - intros H. repeat (apply andb_true_iff in H as [H ?]).
    apply Z.eqb_eq in H. unfold len in H.
    destruct its as [|a [|b [|c [|d [|e [|f ?]]]]]]; simpl in H; try lia.
    unfold item_is, bytes_of_len in *. simpl in *.
    destruct c as [|h]; [done|].
    repeat match goal with
    | H : bool_decide _ = true |- _ => apply bool_decide_eq_true in H
    end.
    subst. exists h. split; [done|]. simpl. lia.
  - intros [h [-> Hlen]]. simpl in *. unfold item_is, bytes_of_len. simpl.
    rewrite Hlen. done.
Qed.

Lemma is_p2sh_shape (self : Script) :
  is_p2sh_script_pubkey self = true ↔ ∃ h, matches self (P2SH h).
Proof.
  destruct self as [its]. unfold is_p2sh_script_pubkey, matches. cbn [items].
  split.
  - intros H. repeat (apply andb_true_iff in H as [H ?]).
    apply Z.eqb_eq in H. unfold len in H.
    destruct its as [|a [|b [|c [|d ?]]]]; simpl in H; try lia.
    unfold item_is, bytes_of_len in *. simpl in *.
    destruct b as [|h]; [done|].
    repeat match goal with
    | H : bool_decide _ = true |- _ => apply bool_decide_eq_true in H
    end.
    subst. exists h. split; [done|]. simpl. lia.
  - intros [h [-> Hlen]]. simpl in *. unfold item_is, bytes_of_len. simpl.
    rewrite Hlen. done.
Qed.

Lemma is_witness_shape (its : list item) (n : Z) :
  (len its =? 2) && item_is its 0 (Int 0) && bytes_of_len its 1 n = true ↔
  ∃ h, its = [Int 0; Bytes h] ∧ len h = n.
Proof.
  split.
  - intros H. repeat (apply andb_true_iff in H as [H ?]).
    apply Z.eqb_eq in H. unfold len in H.
    destruct its as [|a [|b [|c ?]]]; simpl in H; try lia.
    unfold item_is, bytes_of_len in *. simpl in *.
    destruct b as [|h]; [done|].
    repeat match goal with
    | H : bool_decide _ = true |- _ => apply bool_decide_eq_true in H
    end.
    subst. exists h. split; [done|]. lia.
  - intros [h [-> Hlen]]. unfold item_is, bytes_of_len. simpl.
    rewrite Hlen. apply Z.eqb_refl.
Qed.

Lemma is_p2wpkh_shape (self : Script) :
  is_p2wpkh_script_pubkey self = true ↔ ∃ h, matches self (P2WPKH h).
Proof.
  unfold is_p2wpkh_script_pubkey, matches. rewrite is_witness_shape. done.
Qed.

Lemma is_p2wsh_shape (self : Script) :
  is_p2wsh_script_pubkey self = true ↔ ∃ h, matches self (P2WSH h).
Proof.
  unfold is_p2wsh_script_pubkey, matches. rewrite is_witness_shape. done.
Qed.

Lemma raw_serialize_witness_program (h : bytes) (p : byte) :
  len h < 256 → p = byte_of_Z (len h) →
  raw_serialize (mkScript [Int 0; Bytes h]) = Ok (x00 :: p :: h).
Proof.
  intros Hlen ->. unfold raw_serialize. cbn [items raw_serialize_loop].
  rewrite !int_to_little_endian_1.
  replace ((0 <=? len h) && (len h <? 256)) with true by (unfold len in *; lia).
  done.
Qed.

Section AddressProperties.

Context {address_string : Type}.
Variable h160_to_p2pkh_address : item → bool → address_string.
Variable h160_to_p2sh_address : item → bool → address_string.
Variable encode_bech32_checksum : bytes → bytes → address_string.

Local Abbreviation script_address :=
  (address h160_to_p2pkh_address h160_to_p2sh_address encode_bech32_checksum).
Local Abbreviation encoded :=
  (template_address h160_to_p2pkh_address h160_to_p2sh_address
     encode_bech32_checksum).

(** C9. [address] gives the matching template's encoding of the embedded
    hash (of the raw serialization, for the two witness templates) for the
    network asked for, when the items of the script are exactly those of
    one of the four templates, and no result when they are those of
    none. *)
Theorem address_by_template (self : Script) (testnet : bool) :
  (∀ t, matches self t →
     script_address self testnet = Ok (Some (encoded t testnet)))
  ∧ ((∀ t, ¬ matches self t) → script_address self testnet = Ok None).
Proof.
  split.
  - intros t Ht. unfold address.
    destruct t as [h|h|h|h].
    + rewrite (proj2 (is_p2pkh_shape self)) by eauto.
      destruct Ht as [-> _]. done.
    + destruct (is_p2pkh_script_pubkey self) eqn:E1.
      { apply is_p2pkh_shape in E1 as [h' [E1 _]].
        destruct Ht as [Ht _]. rewrite Ht in E1. done. }
      rewrite (proj2 (is_p2sh_shape self)) by eauto.
      destruct Ht as [-> _]. done.
    + destruct (is_p2pkh_script_pubkey self) eqn:E1.
      { apply is_p2pkh_shape in E1 as [h' [E1 _]].
        destruct Ht as [Ht _]. rewrite Ht in E1. done. }
      destruct (is_p2sh_script_pubkey self) eqn:E2.
      { apply is_p2sh_shape in E2 as [h' [E2 _]].
        destruct Ht as [Ht _]. rewrite Ht in E2. done. }
      rewrite (proj2 (is_p2wpkh_shape self)) by eauto.
      destruct self as [its]. destruct Ht as [Ht Hlen]. simpl in *. subst.
      rewrite (raw_serialize_witness_program h x14); [done|lia|].
      by rewrite Hlen.
    + destruct (is_p2pkh_script_pubkey self) eqn:E1.
      { apply is_p2pkh_shape in E1 as [h' [E1 _]].
        destruct Ht as [Ht _]. rewrite Ht in E1. done. }
      destruct (is_p2sh_script_pubkey self) eqn:E2.
      { apply is_p2sh_shape in E2 as [h' [E2 _]].
        destruct Ht as [Ht _]. rewrite Ht in E2. done. }
      destruct (is_p2wpkh_script_pubkey self) eqn:E3.
      { apply is_p2wpkh_shape in E3 as [h' [E3 E3']].
        destruct Ht as [Ht Hlen]. rewrite Ht in E3. simpl in *.
        injection E3 as <-. lia. }
      rewrite (proj2 (is_p2wsh_shape self)) by eauto.
      destruct self as [its]. destruct Ht as [Ht Hlen]. simpl in *. subst.
      rewrite (raw_serialize_witness_program h x20); [done|lia|].
      by rewrite Hlen.
  - intros Hnone. unfold address.
    destruct (is_p2pkh_script_pubkey self) eqn:E1.
    { apply is_p2pkh_shape in E1 as [h E1]. by destruct (Hnone _ E1). }
    destruct (is_p2sh_script_pubkey self) eqn:E2.
    { apply is_p2sh_shape in E2 as [h E2]. by destruct (Hnone _ E2). }
    destruct (is_p2wpkh_script_pubkey self) eqn:E3.
    { apply is_p2wpkh_shape in E3 as [h E3]. by destruct (Hnone _ E3). }
    destruct (is_p2wsh_script_pubkey self) eqn:E4.
    { apply is_p2wsh_shape in E4 as [h E4]. by destruct (Hnone _ E4). }
    done.
Qed.

End AddressProperties.

(** ** The store: running the list primitives *)

Section Running.

Variables (h : gmap nat (list item)) (items stack : loc).
Hypothesis distinct : items ≠ stack.

Lemma get_items q st :
  get items (two_lists h items stack q st)
  = (Ok q, two_lists h items stack q st).
Proof. unfold get, two_lists. by rewrite lookup_insert_eq. Qed.

Lemma get_stack q st :
  get stack (two_lists h items stack q st)
  = (Ok st, two_lists h items stack q st).
Proof.
  unfold get, two_lists.
  by rewrite lookup_insert_ne, lookup_insert_eq by done.
Qed.

Lemma put_items q st q' :
  put items q' (two_lists h items stack q st)
  = (Ok (), two_lists h items stack q' st).
Proof. unfold put, two_lists. by rewrite insert_insert_eq. Qed.

Lemma put_stack q st st' :
  put stack st' (two_lists h items stack q st)
  = (Ok (), two_lists h items stack q st').
Proof.
  unfold put, two_lists.
  by rewrite (insert_insert_ne _ stack items), insert_insert_eq by done.
Qed.

Lemma bind_run {A B} (m : M A) (k : A → M B) (h0 : gmap nat (list item)) :
  (m ≫= k) h0 =
    match m h0 with
    | (Ok a, h') => k a h'
    | (Raise e, h') => (Raise e, h')
    end.
Proof. done. Qed.

Lemma list_pop0_items x q st :
  list_pop0 items (two_lists h items stack (x :: q) st)
  = (Ok x, two_lists h items stack q st).
Proof.
  unfold list_pop0. rewrite bind_run, get_items. cbv beta iota.
  rewrite bind_run, put_items. done.
Qed.

Lemma list_pop_items x q st :
  list_pop items (two_lists h items stack (q ++ [x]) st)
  = (Ok x, two_lists h items stack q st).
Proof.
  unfold list_pop. rewrite bind_run, get_items. cbv beta iota.
  rewrite last_snoc, but_last_snoc, bind_run, put_items. done.
Qed.

Lemma list_pop_stack x q st :
  list_pop stack (two_lists h items stack q (st ++ [x]))
  = (Ok x, two_lists h items stack q st).
Proof.
  unfold list_pop. rewrite bind_run, get_stack by done. cbv beta iota.
  rewrite last_snoc, but_last_snoc, bind_run, put_stack by done. done.
Qed.

Lemma list_pop_stack_empty q :
  list_pop stack (two_lists h items stack q [])
  = (Raise IndexError, two_lists h items stack q []).
Proof. unfold list_pop. by rewrite bind_run, get_stack by done. Qed.

Lemma list_append_stack x q st :
  list_append stack x (two_lists h items stack q st)
  = (Ok (), two_lists h items stack q (st ++ [x])).
Proof.
  unfold list_append. rewrite bind_run, get_stack by done. cbv beta iota.
  by rewrite put_stack.
Qed.

Lemma list_extend_items xs q st :
  list_extend items xs (two_lists h items stack q st)
  = (Ok (), two_lists h items stack (q ++ xs) st).
Proof.
  unfold list_extend. rewrite bind_run, get_items. cbv beta iota.
  by rewrite put_items.
Qed.

Lemma call_op_stack (f : list item → outcome (bool * list item)) q st :
  call_op f stack (two_lists h items stack q st)
  = match f st with
    | Ok (b, st') => (Ok b, two_lists h items stack q st')
    | Raise e => (Raise e, two_lists h items stack q st)
    end.
Proof.
  unfold call_op. rewrite bind_run, get_stack by done. cbv beta iota.
  destruct (f st) as [[b st']|e]; [|done].
  by rewrite bind_run, put_stack.
Qed.

End Running.

(** ** Locations a computation leaves alone *)

Section Preserves.

Variable P : loc → Prop.

Lemma preserves_ret {A} (a : A) : preserves P (mret a).
Proof. by intros h l _. Qed.

Lemma preserves_raise {A} (e : exn) : preserves P (@raise A e).
Proof. by intros h l _. Qed.

Lemma preserves_lift {A} (o : outcome A) : preserves P (lift o).
Proof. by intros h l _. Qed.

Lemma preserves_get (l0 : loc) : preserves P (get l0).
Proof. intros h l _. unfold get. by destruct (h !! l0). Qed.

Lemma preserves_put (l0 : loc) (v : list item) :
  ¬ P l0 → preserves P (put l0 v).
Proof.
  intros Hl0 h l Hl. unfold put. simpl.
  apply lookup_insert_ne. by intros ->.
Qed.

Lemma preserves_bind {A B} (m : M A) (k : A → M B) :
  preserves P m → (∀ a, preserves P (k a)) → preserves P (m ≫= k).
Proof.
  intros Hm Hk h l Hl. rewrite bind_run. specialize (Hm h l Hl).
  destruct (m h) as [[a|e] h']; simpl in *; [|done].
  by rewrite (Hk a h' l Hl).
Qed.

End Preserves.

Ltac preserve :=
  repeat first
    [ apply preserves_ret
    | apply preserves_raise
    | apply preserves_lift
    | apply preserves_get
    | apply preserves_put; solve [intros [? ?]; done]
    | apply preserves_bind; [|intros ?]
    | match goal with
      | |- preserves _ (match ?x with _ => _ end) => destruct x
      end
    | progress unfold list_pop0, list_pop, list_append, list_extend,
        call_op, and_then, print_bad_op ].

(** ** The interpreter *)

Lemma and_then_run (m k : M flow) (h : gmap nat (list item)) :
  (m ;;; k) h =
    match m h with
    | (Ok (Return b), h') => (Ok (Return b), h')
    | (Ok Next, h') => k h'
    | (Raise e, h') => (Raise e, h')
    end.
Proof.
  unfold and_then. rewrite bind_run.
  destruct (m h) as [[[b|]|e] h']; done.
Qed.

Section InterpreterProperties.

Context {sighash : Type}.
Variable OP_CODE_FUNCTIONS : Z → option (@opcode_function sighash).
Variable OP_CODE_NAMES : Z → option string.
Variable op_hash160 : list item → outcome (bool * list item).
Variable op_equal : list item → outcome (bool * list item).
Variable helper_sha256 : bytes → bytes.

Local Abbreviation exec_op' := (exec_op OP_CODE_FUNCTIONS OP_CODE_NAMES).
Local Abbreviation p2sh_rule' := (p2sh_rule op_hash160 op_equal).
Local Abbreviation p2wsh_rule' := (p2wsh_rule helper_sha256).
Local Abbreviation push_data' :=
  (push_data op_hash160 op_equal helper_sha256).
Local Abbreviation step' :=
  (step OP_CODE_FUNCTIONS OP_CODE_NAMES op_hash160 op_equal helper_sha256).
Local Abbreviation eval_loop' :=
  (eval_loop OP_CODE_FUNCTIONS OP_CODE_NAMES op_hash160 op_equal
     helper_sha256).
Local Abbreviation run_from' :=
  (run_from OP_CODE_FUNCTIONS OP_CODE_NAMES op_hash160 op_equal
     helper_sha256).
Local Abbreviation evaluate' :=
  (evaluate OP_CODE_FUNCTIONS OP_CODE_NAMES op_hash160 op_equal
     helper_sha256).

Section Loop.

Variables (h : gmap nat (list item)) (items stack : loc).
Variable tx_in : @TxIn sighash.
Hypothesis distinct : items ≠ stack.

Lemma eval_loop_nil fuel st :
  eval_loop' fuel tx_in items stack (two_lists h items stack [] st)
  = (Ok Next, two_lists h items stack [] st).
Proof. destruct fuel; simpl; by rewrite bind_run, get_items. Qed.

Lemma eval_loop_cons fuel x q st :
  eval_loop' (S fuel) tx_in items stack
    (two_lists h items stack (x :: q) st)
  = (step' tx_in items stack ;;; eval_loop' fuel tx_in items stack)
      (two_lists h items stack (x :: q) st).
Proof.
  cbn [eval_loop]. rewrite bind_run, get_items. cbv beta iota.
  replace (0 <? len (x :: q)) with true; [done|].
  symmetry. apply Z.ltb_lt. unfold len. rewrite length_cons. lia.
Qed.

Lemma step_int n q st :
  step' tx_in items stack (two_lists h items stack (Int n :: q) st)
  = exec_op' tx_in stack n (two_lists h items stack q st).
Proof. unfold step. by rewrite bind_run, list_pop0_items. Qed.

Lemma step_bytes d q st :
  step' tx_in items stack (two_lists h items stack (Bytes d :: q) st)
  = push_data' tx_in items stack d (two_lists h items stack q st).
Proof. unfold step. by rewrite bind_run, list_pop0_items. Qed.

Lemma finish_run st :
  finish stack (two_lists h items stack [] st)
  = match last st with
    | None => (Ok false, two_lists h items stack [] st)
    | Some top =>
        (Ok (negb (bool_decide (top = Int 0))),
         two_lists h items stack [] (but_last st))
    end.
Proof.
  unfold finish. rewrite bind_run, get_stack by done. cbv beta iota.
  destruct st as [|x st _] using rev_ind; [done|].
  replace (len (st ++ [x]) =? 0) with false
    by (symmetry; apply Z.eqb_neq; unfold len; rewrite length_app;
        cbn [length]; lia).
  rewrite bind_run, list_pop_stack, last_snoc, but_last_snoc by done.
  cbv beta iota. by destruct (bool_decide (x = Int 0)).
Qed.

Lemma run_from_cons fuel x q st :
  run_from' (S fuel) tx_in items stack
    (two_lists h items stack (x :: q) st)
  = match step' tx_in items stack (two_lists h items stack (x :: q) st)
    with
    | (Ok (Return b), h') => (Ok b, h')
    | (Ok Next, h') => run_from' fuel tx_in items stack h'
    | (Raise e, h') => (Raise e, h')
    end.
Proof.
  unfold run_from. rewrite bind_run, eval_loop_cons, and_then_run.
  destruct (step' _ _ _ _) as [[[b|]|e] h']; done.
Qed.

(** C1, amended. When the item queue is exhausted, [evaluate] returns
    true if and only if the stack is non-empty and its top element is
    not the integer 0; every byte string on top, empty and all-zero
    ones included, counts as true. *)
Theorem evaluate_verdict_on_exhausted_queue fuel st :
  ∃ b h',
    run_from' fuel tx_in items stack (two_lists h items stack [] st)
    = (Ok b, h')
    ∧ (b = true ↔ ∃ st' top, st = st' ++ [top] ∧ top ≠ Int 0)
    ∧ (∀ st' d, st = st' ++ [Bytes d] → b = true).
Proof.
  unfold run_from. rewrite bind_run, eval_loop_nil by done.
  cbv beta iota. rewrite finish_run by done.
  destruct st as [|top st' _] using rev_ind.
  - eexists _, _. split; [done|]. split.
    + split; [done|]. intros (st' & top & Hst & _).
      by destruct st'.
    + intros st' d Hst. by destruct st'.
  - rewrite last_snoc. eexists _, _. split; [done|]. split.
    + rewrite negb_true_iff, bool_decide_eq_false. split.
      * intros Htop. by exists st', top.
      * intros (st'' & top' & [-> ->]%app_inj_tail & Htop). done.
    + intros st'' d [-> ->]%app_inj_tail. done.
Qed.

(** C7. An opcode item is looked up in the opcode table and called on
    the shared stack, with [tx_in.sig_hash] as a second argument exactly
    for the opcodes 172 to 175. When the call returns failure,
    [evaluate] returns false at once: no exception is raised and the
    remaining items stay in the queue, unexecuted. When it returns
    success, the loop goes on with the remaining items and the stack as
    the opcode left it. *)
Theorem opcode_dispatch_is_fail_fast fuel n operation q st :
  OP_CODE_FUNCTIONS n = Some operation →
  is_Some (OP_CODE_NAMES n) →
  let extra :=
    if bool_decide (n ∈ [172; 173; 174; 175])
    then Some (sig_hash tx_in) else None in
  (∀ st', operation st extra = Ok (false, st') →
     run_from' (S fuel) tx_in items stack
       (two_lists h items stack (Int n :: q) st)
     = (Ok false, two_lists h items stack q st'))
  ∧ (∀ st', operation st extra = Ok (true, st') →
       run_from' (S fuel) tx_in items stack
         (two_lists h items stack (Int n :: q) st)
       = run_from' fuel tx_in items stack
           (two_lists h items stack q st')).
Proof.
  intros Hop [name Hname] extra.
  assert (Hstep : ∀ b st', operation st extra = Ok (b, st') →
    step' tx_in items stack (two_lists h items stack (Int n :: q) st)
    = (Ok (if b then Next else Return false),
       two_lists h items stack q st')).
  { intros b st' Hcall. rewrite step_int. unfold exec_op.
    rewrite Hop. subst extra. unfold is_signing_op, print_bad_op.
    destruct (bool_decide (n ∈ [172; 173; 174; 175]));
      rewrite bind_run, call_op_stack, Hcall by done;
      destruct b; cbn [negb]; cbv beta iota; try done;
      by rewrite bind_run, Hname. }
  split; intros st' Hcall; rewrite run_from_cons;
    by rewrite (Hstep _ _ Hcall).
Qed.

Lemma lift_run {A} (o : outcome A) (h0 : gmap nat (list item)) :
  lift o h0 = (o, h0).
Proof. done. Qed.

Lemma push_data_run d q st :
  push_data' tx_in items stack d (two_lists h items stack q st)
  = (p2sh_rule' items stack d ;;; p2wpkh_rule tx_in items stack ;;;
     p2wsh_rule' tx_in items stack)
      (two_lists h items stack q (st ++ [Bytes d])).
Proof.
  unfold push_data. rewrite and_then_run, bind_run.
  by rewrite list_append_stack.
Qed.

Lemma p2sh_rule_skip d q st :
  p2sh_pattern q = false →
  p2sh_rule' items stack d (two_lists h items stack q st)
  = (Ok Next, two_lists h items stack q st).
Proof.
  intros Hq. unfold p2sh_rule. rewrite bind_run, get_items.
  cbv beta iota. by rewrite Hq.
Qed.

Lemma p2wpkh_rule_skip q st :
  witness_pattern st 20 = false →
  p2wpkh_rule tx_in items stack (two_lists h items stack q st)
  = (Ok Next, two_lists h items stack q st).
Proof.
  intros Hst. unfold p2wpkh_rule. rewrite bind_run, get_stack by done.
  cbv beta iota. by rewrite Hst.
Qed.

Lemma p2wsh_rule_skip q st :
  witness_pattern st 32 = false →
  p2wsh_rule' tx_in items stack (two_lists h items stack q st)
  = (Ok Next, two_lists h items stack q st).
Proof.
  intros Hst. unfold p2wsh_rule. rewrite bind_run, get_stack by done.
  cbv beta iota. by rewrite Hst.
Qed.

(** The p2sh rule when it fires: the three items leave the queue, the
    two opcode functions run on the stack, and the parsed redeem script
    becomes the queue. *)
Lemma p2sh_rule_fires d h20 st v :
  len h20 = 20 →
  encode_varint (len d) = Ok v →
  p2sh_rule' items stack d
    (two_lists h items stack [Int 0xa9; Bytes h20; Int 0x87] st)
  = match op_hash160 st with
    | Raise e => (Raise e, two_lists h items stack [] st)
    | Ok (false, st1) =>
        (Ok (Return false), two_lists h items stack [] st1)
    | Ok (true, st1) =>
        match op_equal (st1 ++ [Bytes h20]) with
        | Raise e =>
            (Raise e, two_lists h items stack [] (st1 ++ [Bytes h20]))
        | Ok (false, st2) =>
            (Ok (Return false), two_lists h items stack [] st2)
        | Ok (true, st2) =>
            match last st2 with
            | None => (Raise IndexError, two_lists h items stack [] st2)
            | Some top =>
                if bool_decide (top ≠ Int 1)
                then (Ok (Return false),
                      two_lists h items stack [] (but_last st2))
                else
                  match parse (v ++ d) with
                  | Raise e =>
                      (Raise e, two_lists h items stack [] (but_last st2))
                  | Ok (script, _) =>
                      (Ok Next,
                       two_lists h items stack (items_of script)
                         (but_last st2))
                  end
            end
        end
    end.
Proof.
  intros Hlen Hv. unfold p2sh_rule. rewrite bind_run, get_items.
  cbv beta iota.
  replace (p2sh_pattern [Int 169; Bytes h20; Int 135]) with true
    by (unfold p2sh_pattern, item_is, bytes_of_len; simpl;
        by rewrite Hlen).
  rewrite bind_run, lift_run, Hv. cbn [mbind outcome_bind].
  cbv beta iota.
  change [Int 169; Bytes h20; Int 135]
    with ([Int 169; Bytes h20] ++ [Int 135]).
  rewrite bind_run, list_pop_items. cbv beta iota.
  change [Int 169; Bytes h20] with ([Int 169] ++ [Bytes h20]).
  rewrite bind_run, list_pop_items. cbv beta iota.
  change [Int 169] with ([] ++ [Int 169]).
  rewrite bind_run, list_pop_items. cbv beta iota.
  rewrite bind_run, call_op_stack by done.
  destruct (op_hash160 st) as [[[] st1]|e]; cbn [negb]; cbv beta iota;
    [|done|done].
  rewrite bind_run, list_append_stack by done. cbv beta iota.
  rewrite bind_run, call_op_stack by done.
  destruct (op_equal (st1 ++ [Bytes h20])) as [[[] st2]|e]; cbn [negb];
    cbv beta iota; [|done|done].
  destruct st2 as [|top st2 _] using rev_ind.
  { by rewrite bind_run, list_pop_stack_empty by done. }
  rewrite bind_run, list_pop_stack, last_snoc, but_last_snoc by done.
  cbv beta iota. destruct (bool_decide (top ≠ Int 1)); [done|].
  rewrite bind_run, lift_run.
  destruct (parse (v ++ d)) as [[script rest]|e]; [|done].
  cbv beta iota. by rewrite bind_run, list_extend_items.
Qed.

Lemma witness_pattern_two hh n :
  witness_pattern [Int 0; Bytes hh] n = (len hh =? n).
Proof. done. Qed.

(** The p2wpkh rule when it fires. *)
Lemma p2wpkh_rule_fires hh q :
  len hh = 20 →
  p2wpkh_rule tx_in items stack
    (two_lists h items stack q [Int 0; Bytes hh])
  = (Ok Next,
     two_lists h items stack
       (q ++ (Bytes <$> witness_program tx_in)
          ++ [Int 0x76; Int 0xa9; Bytes hh; Int 0x88; Int 0xac]) []).
Proof.
  intros Hlen. unfold p2wpkh_rule. rewrite bind_run, get_stack by done.
  cbv beta iota. rewrite witness_pattern_two, Hlen. cbn [Z.eqb Pos.eqb].
  change [Int 0; Bytes hh] with ([Int 0] ++ [Bytes hh]).
  rewrite bind_run, list_pop_stack by done. cbv beta iota.
  change [Int 0] with ([] ++ [Int 0]).
  rewrite bind_run, list_pop_stack by done. cbv beta iota.
  rewrite bind_run, list_extend_items. cbv beta iota.
  rewrite bind_run, list_extend_items. cbv beta iota.
  by rewrite <- app_assoc.
Qed.

(** The p2wsh rule when it fires. *)
Lemma p2wsh_rule_fires hh q :
  len hh = 32 →
  p2wsh_rule' tx_in items stack
    (two_lists h items stack q [Int 0; Bytes hh])
  = let q1 := q ++ (Bytes <$> but_last (witness_program tx_in)) in
    match last (witness_program tx_in) with
    | None => (Raise IndexError, two_lists h items stack q1 [])
    | Some w =>
        if bool_decide (Bytes hh ≠ Bytes (helper_sha256 w))
        then (Ok (Return false), two_lists h items stack q1 [])
        else
          match v ← encode_varint (len w); parse (v ++ w) with
          | Raise e => (Raise e, two_lists h items stack q1 [])
          | Ok (script, _) =>
              (Ok Next, two_lists h items stack (q1 ++ items_of script) [])
          end
    end.
Proof.
  intros Hlen. unfold p2wsh_rule. rewrite bind_run, get_stack by done.
  cbv beta iota. rewrite witness_pattern_two, Hlen. cbn [Z.eqb Pos.eqb].
  change [Int 0; Bytes hh] with ([Int 0] ++ [Bytes hh]).
  rewrite bind_run, list_pop_stack by done. cbv beta iota.
  change [Int 0] with ([] ++ [Int 0]).
  rewrite bind_run, list_pop_stack by done. cbv beta iota.
  rewrite bind_run, list_extend_items. cbv beta iota zeta.
  destruct (last (witness_program tx_in)) as [w|]; [|done].
  destruct (bool_decide (Bytes hh ≠ Bytes (helper_sha256 w))); [done|].
  rewrite bind_run, lift_run.
  destruct (v ← encode_varint (len w); parse (v ++ w))
    as [[script rest]|e]; [|done].
  cbv beta iota. by rewrite bind_run, list_extend_items.
Qed.

Lemma p2sh_pattern_shape q :
  p2sh_pattern q = true ↔
  ∃ h20, q = [Int 0xa9; Bytes h20; Int 0x87] ∧ len h20 = 20.
Proof. apply (is_p2sh_shape (mkScript q)). Qed.

Lemma witness_pattern_shape st n :
  witness_pattern st n = true ↔ ∃ hh, st = [Int 0; Bytes hh] ∧ len hh = n.
Proof. apply is_witness_shape. Qed.

Lemma p2sh_pattern_not q :
  (∀ hx, q = [Int 0xa9; Bytes hx; Int 0x87] → len hx ≠ 20) →
  p2sh_pattern q = false.
Proof.
  intros Hq. destruct (p2sh_pattern q) eqn:E; [|done].
  apply p2sh_pattern_shape in E as (hx & -> & Hlen).
  by destruct (Hq hx).
Qed.

(** C2, amended. Right after a data item is pushed, if the remaining
    queue consists of exactly the three items 0xa9, a 20-byte data item
    and 0x87, these three leave the queue and HASH160, the push of the
    hash and EQUAL run on the stack; a failure of either opcode or a
    result other than the integer 1 makes [evaluate] return false;
    otherwise the items parsed from the length-prefixed pushed item
    become the queue, and the pass goes on with the witness rules. With
    any other remaining queue, a longer one that starts with these three
    included, the rule does nothing. *)
Theorem p2sh_rewrite_after_push d h20 st v :
  len h20 = 20 →
  encode_varint (len d) = Ok v →
  let before :=
    two_lists h items stack [Bytes d; Int 0xa9; Bytes h20; Int 0x87] st in
  let pushed := st ++ [Bytes d] in
  (∀ st1, op_hash160 pushed = Ok (false, st1) →
     step' tx_in items stack before
     = (Ok (Return false), two_lists h items stack [] st1))
  ∧ (∀ st1 st2,
       op_hash160 pushed = Ok (true, st1) →
       op_equal (st1 ++ [Bytes h20]) = Ok (false, st2) →
       step' tx_in items stack before
       = (Ok (Return false), two_lists h items stack [] st2))
  ∧ (∀ st1 st2 top,
       op_hash160 pushed = Ok (true, st1) →
       op_equal (st1 ++ [Bytes h20]) = Ok (true, st2 ++ [top]) →
       top ≠ Int 1 →
       step' tx_in items stack before
       = (Ok (Return false), two_lists h items stack [] st2))
  ∧ (∀ st1 st2 script rest,
       op_hash160 pushed = Ok (true, st1) →
       op_equal (st1 ++ [Bytes h20]) = Ok (true, st2 ++ [Int 1]) →
       parse (v ++ d) = Ok (script, rest) →
       step' tx_in items stack before
       = (p2wpkh_rule tx_in items stack ;;; p2wsh_rule' tx_in items stack)
           (two_lists h items stack (items_of script) st2))
  ∧ (∀ q,
       (∀ hx, q = [Int 0xa9; Bytes hx; Int 0x87] → len hx ≠ 20) →
       step' tx_in items stack (two_lists h items stack (Bytes d :: q) st)
       = (p2wpkh_rule tx_in items stack ;;; p2wsh_rule' tx_in items stack)
           (two_lists h items stack q pushed)).
Proof.
  intros Hlen Hv before pushed. subst before.
  repeat split.
  - intros st1 H1. rewrite step_bytes, push_data_run, and_then_run.
    rewrite (p2sh_rule_fires _ _ _ _ Hlen Hv). fold pushed.
    by rewrite H1.
  - intros st1 st2 H1 H2.
    rewrite step_bytes, push_data_run, and_then_run.
    rewrite (p2sh_rule_fires _ _ _ _ Hlen Hv). fold pushed.
    by rewrite H1, H2.
  - intros st1 st2 top H1 H2 Htop.
    rewrite step_bytes, push_data_run, and_then_run.
    rewrite (p2sh_rule_fires _ _ _ _ Hlen Hv). fold pushed.
    rewrite H1, H2, last_snoc, but_last_snoc.
    by rewrite bool_decide_eq_true_2.
  - intros st1 st2 script rest H1 H2 Hparse.
    rewrite step_bytes, push_data_run, and_then_run.
    rewrite (p2sh_rule_fires _ _ _ _ Hlen Hv). fold pushed.
    rewrite H1, H2, last_snoc, but_last_snoc.
    rewrite bool_decide_eq_false_2 by (intros Hne; by apply Hne).
    by rewrite Hparse.
  - intros q Hq. rewrite step_bytes, push_data_run, and_then_run.
    by rewrite p2sh_rule_skip by (by apply p2sh_pattern_not).
Qed.

(** C3, amended. Right after a data item is pushed (and the p2sh rule
    did not fire), if the stack holds exactly two elements, the integer 0
    at the bottom and the 20-byte string just pushed on top, both are
    popped and the witness-program items followed by the items of the
    P2PKH script of that string are appended at the end of the queue. If
    the top is a 32-byte string instead, both are popped, all
    witness-program items but the last are appended at the end of the
    queue, and [evaluate] returns false when the sha256 of the last one
    differs from the 32-byte string; otherwise the items parsed from the
    length-prefixed last witness item are appended too. With any other
    stack nothing is rewritten. *)
Theorem witness_rewrite_after_push hh q :
  (∀ hx, q = [Int 0xa9; Bytes hx; Int 0x87] → len hx ≠ 20) →
  let before := two_lists h items stack (Bytes hh :: q) [Int 0] in
  (len hh = 20 →
     step' tx_in items stack before
     = (Ok Next,
        two_lists h items stack
          (q ++ (Bytes <$> witness_program tx_in)
             ++ [Int 0x76; Int 0xa9; Bytes hh; Int 0x88; Int 0xac]) []))
  ∧ (∀ ws w v script rest,
       len hh = 32 →
       witness_program tx_in = ws ++ [w] →
       hh = helper_sha256 w →
       encode_varint (len w) = Ok v →
       parse (v ++ w) = Ok (script, rest) →
       step' tx_in items stack before
       = (Ok Next,
          two_lists h items stack
            (q ++ (Bytes <$> ws) ++ items_of script) []))
  ∧ (∀ ws w,
       len hh = 32 →
       witness_program tx_in = ws ++ [w] →
       hh ≠ helper_sha256 w →
       step' tx_in items stack before
       = (Ok (Return false),
          two_lists h items stack (q ++ (Bytes <$> ws)) []))
  ∧ (∀ st d,
       (∀ hx, st ++ [Bytes d] = [Int 0; Bytes hx] →
              len hx ≠ 20 ∧ len hx ≠ 32) →
       step' tx_in items stack (two_lists h items stack (Bytes d :: q) st)
       = (Ok Next, two_lists h items stack q (st ++ [Bytes d]))).
Proof.
  intros Hq before. subst before.
  assert (Hskip := p2sh_pattern_not q Hq).
  repeat split.
  - intros Hlen. rewrite step_bytes, push_data_run, and_then_run.
    rewrite p2sh_rule_skip by done. cbn [app]. rewrite and_then_run.
    rewrite p2wpkh_rule_fires by done. by rewrite p2wsh_rule_skip.
  - intros ws w v script rest Hlen Hwp Hsha Hv Hparse.
    rewrite step_bytes, push_data_run, and_then_run.
    rewrite p2sh_rule_skip by done. cbn [app]. rewrite and_then_run.
    rewrite p2wpkh_rule_skip
      by (rewrite witness_pattern_two, Hlen; done).
    rewrite p2wsh_rule_fires by done.
    rewrite Hwp, last_snoc, but_last_snoc. cbv zeta.
    rewrite bool_decide_eq_false_2 by (intros Hne; apply Hne; by subst).
    rewrite Hv. cbn [mbind outcome_bind]. rewrite Hparse.
    by rewrite <- app_assoc.
  - intros ws w Hlen Hwp Hsha.
    rewrite step_bytes, push_data_run, and_then_run.
    rewrite p2sh_rule_skip by done. cbn [app]. rewrite and_then_run.
    rewrite p2wpkh_rule_skip
      by (rewrite witness_pattern_two, Hlen; done).
    rewrite p2wsh_rule_fires by done.
    rewrite Hwp, last_snoc, but_last_snoc. cbv zeta.
    by rewrite bool_decide_eq_true_2 by congruence.
  - intros st d Hst. rewrite step_bytes, push_data_run, and_then_run.
    rewrite p2sh_rule_skip by done. rewrite and_then_run.
    assert (H20 : witness_pattern (st ++ [Bytes d]) 20 = false).
    { destruct (witness_pattern _ 20) eqn:E; [|done].
      apply witness_pattern_shape in E as (hx & E & Hlen).
      by destruct (Hst hx E). }
    assert (H32 : witness_pattern (st ++ [Bytes d]) 32 = false).
    { destruct (witness_pattern _ 32) eqn:E; [|done].
      apply witness_pattern_shape in E as (hx & E & Hlen).
      by destruct (Hst hx E). }
    rewrite p2wpkh_rule_skip by done. by rewrite p2wsh_rule_skip.
Qed.

End Loop.

Section Frame.

Variables (items stack : loc) (tx_in : @TxIn sighash).

Let other (l : loc) : Prop := l ≠ items ∧ l ≠ stack.

Lemma step_preserves : preserves other (step' tx_in items stack).
Proof.
  unfold step, exec_op, push_data, p2sh_rule, p2wpkh_rule, p2wsh_rule.
  preserve.
Qed.

Lemma eval_loop_preserves fuel :
  preserves other (eval_loop' fuel tx_in items stack).
Proof.
  induction fuel as [|fuel IH]; cbn [eval_loop];
    (apply preserves_bind; [apply preserves_get|intros q]);
    destruct (0 <? len q);
    try apply preserves_ret; try apply preserves_raise.
  unfold and_then. apply preserves_bind; [apply step_preserves|].
  intros [b|]; [apply preserves_ret|apply IH].
Qed.

Lemma run_from_preserves fuel :
  preserves other (run_from' fuel tx_in items stack).
Proof.
  unfold run_from. apply preserves_bind; [apply eval_loop_preserves|].
  intros [b|]; [apply preserves_ret|]. unfold finish. preserve.
Qed.

End Frame.

(** C8. [evaluate] works on a copy of the item list: when it returns, with
    either result, or raises, the list object that [self.items] refers to
    holds the same items in the same order as before the call, and so
    does every other list object that existed before the call. *)
Theorem evaluate_leaves_items_unchanged (fuel : nat) (self_items : loc)
    (tx_in : @TxIn sighash) (h : gmap nat (list item)) (its : list item) :
  h !! self_items = Some its →
  (evaluate' fuel self_items tx_in h).2 !! self_items = Some its
  ∧ (∀ l, l ∈ dom h → (evaluate' fuel self_items tx_in h).2 !! l = h !! l).
Proof.
  intros Hself.
  assert (Hall : ∀ l, l ∈ dom h →
    (evaluate' fuel self_items tx_in h).2 !! l = h !! l).
  { intros l Hl. unfold evaluate, list_copy.
    rewrite !bind_run. unfold get at 1. rewrite Hself. cbv beta iota.
    unfold alloc at 1. cbv beta iota zeta.
    rewrite bind_run. unfold alloc. cbv beta iota zeta.
    set (items := fresh (dom h)).
    set (h1 := <[items:=its]> h).
    set (stack := fresh (dom h1)).
    assert (Hitems : l ≠ items).
    { intros ->. by apply (is_fresh (dom h)). }
    assert (Hstack : l ≠ stack).
    { intros ->. apply (is_fresh (dom h1)). fold stack.
      unfold h1. rewrite dom_insert. set_solver. }
    rewrite (run_from_preserves items stack tx_in fuel _ l) by done.
    unfold h1. by rewrite !lookup_insert_ne by done. }
  split; [|done].
  rewrite Hall, Hself; [done|]. apply elem_of_dom. by eexists.
Qed.

End InterpreterProperties.

(** ** The claims at concrete inputs *)

(** C1 (the claim as stated fails). The script that pushes the single byte
    00 leaves an all-zero byte string on top of the stack, which the
    specification calls falsy, and [evaluate] returns true. *)
Lemma evaluate_all_zero_bytes_is_true :
  (demo_evaluate 1 (mkScript [Bytes [x00]]) demo_tx_in).1 = Ok true
  ∧ spec_truthy (Bytes [x00]) = false.
Proof. split; reflexivity. Qed.

Lemma evaluate_verdict_on_exhausted_queue_witness :
  ∃ b h',
    run_from demo_OP_CODE_FUNCTIONS demo_OP_CODE_NAMES demo_op_hash160
      demo_op_equal demo_sha256 3 demo_tx_in 0%nat 1%nat
      (two_lists ∅ 0%nat 1%nat [] [Int 0; Bytes [x00]])
    = (Ok b, h')
    ∧ (b = true ↔ ∃ st' top, [Int 0; Bytes [x00]] = st' ++ [top] ∧ top ≠ Int 0)
    ∧ (∀ st' d, [Int 0; Bytes [x00]] = st' ++ [Bytes d] → b = true).
Proof.
  apply (evaluate_verdict_on_exhausted_queue demo_OP_CODE_FUNCTIONS
           demo_OP_CODE_NAMES demo_op_hash160 demo_op_equal demo_sha256
           ∅ 0%nat 1%nat demo_tx_in ltac:(lia) 3%nat [Int 0; Bytes [x00]]).
Defined.

(** C2 (the claim as stated fails). After the push of [51] the next three
    items are 0xa9, a 20-byte item and 0x87, followed by one more item. The
    rule does not fire: the pass leaves the three items in the queue and the
    pushed item on the stack, and the script evaluates to true although the
    hash160 of the pushed item is not the 20-byte item. *)
Lemma p2sh_lookahead_does_not_fire :
  let q := [Int 0xa9; Bytes ones20; Int 0x87; Int 0x51] in
  spec_next_three_p2sh q = true
  ∧ demo_step demo_tx_in 0%nat 1%nat
      (two_lists ∅ 0%nat 1%nat (Bytes [x51] :: q) [])
    = (Ok Next, two_lists ∅ 0%nat 1%nat q [Bytes [x51]])
  ∧ demo_hash160 [x51] ≠ ones20
  ∧ (demo_evaluate 5 (mkScript (Bytes [x51] :: q)) demo_tx_in).1 = Ok true.
Proof. repeat split; try reflexivity. discriminate. Qed.

Lemma p2sh_rewrite_after_push_witness :
  demo_step demo_tx_in 0%nat 1%nat
    (two_lists ∅ 0%nat 1%nat
       [Bytes [x51]; Int 0xa9; Bytes zeros20; Int 0x87] [])
  = (p2wpkh_rule demo_tx_in 0%nat 1%nat ;;;
     p2wsh_rule demo_sha256 demo_tx_in 0%nat 1%nat)
      (two_lists ∅ 0%nat 1%nat [Int 0x51] []).
Proof.
  apply (proj1 (proj2 (proj2 (proj2
    (p2sh_rewrite_after_push demo_OP_CODE_FUNCTIONS demo_OP_CODE_NAMES
       demo_op_hash160 demo_op_equal demo_sha256 ∅ 0%nat 1%nat demo_tx_in
       ltac:(lia) [x51] zeros20 [] [x01] eq_refl eq_refl))))
    [Bytes zeros20] [] (mkScript [Int 0x51]) []); reflexivity.
Defined.

(** C3 (the claim as stated fails). With one item left in the queue, the
    p2wpkh rule puts the witness items and the P2PKH script behind it, not
    in front of it, and in the order witness items, P2PKH script; and a
    stack whose top is the byte 00 above a 20-byte string is not
    rewritten. *)
Lemma witness_items_are_appended :
  demo_step demo_tx_in 0%nat 1%nat
    (two_lists ∅ 0%nat 1%nat [Bytes zeros20; Int 0x51] [Int 0])
  = (Ok Next,
     two_lists ∅ 0%nat 1%nat
       ([Int 0x51] ++ [Bytes [x01]; Bytes [x02; x03]]
          ++ [Int 0x76; Int 0xa9; Bytes zeros20; Int 0x88; Int 0xac]) [])
  ∧ [Int 0x51] ++ [Bytes [x01]; Bytes [x02; x03]]
      ++ [Int 0x76; Int 0xa9; Bytes zeros20; Int 0x88; Int 0xac]
    ≠ spec_p2wpkh_queue [Int 0x51] (witness_program demo_tx_in)
        (Bytes zeros20)
  ∧ demo_step demo_tx_in 0%nat 1%nat
      (two_lists ∅ 0%nat 1%nat [Bytes [x00]] [Bytes zeros20])
    = (Ok Next, two_lists ∅ 0%nat 1%nat [] [Bytes zeros20; Bytes [x00]]).
Proof. repeat split; try reflexivity. discriminate. Qed.

Lemma witness_rewrite_after_push_witness :
  demo_step demo_tx_in 0%nat 1%nat
    (two_lists ∅ 0%nat 1%nat [Bytes zeros20] [Int 0])
  = (Ok Next,
     two_lists ∅ 0%nat 1%nat
       ([] ++ (Bytes <$> witness_program demo_tx_in)
           ++ [Int 0x76; Int 0xa9; Bytes zeros20; Int 0x88; Int 0xac]) []).
Proof.
  apply (proj1
    (witness_rewrite_after_push demo_OP_CODE_FUNCTIONS demo_OP_CODE_NAMES
       demo_op_hash160 demo_op_equal demo_sha256 ∅ 0%nat 1%nat demo_tx_in
       ltac:(lia) zeros20 [] ltac:(discriminate))).
  reflexivity.
Defined.

Lemma opcode_dispatch_is_fail_fast_witness :
  run_from demo_OP_CODE_FUNCTIONS demo_OP_CODE_NAMES demo_op_hash160
    demo_op_equal demo_sha256 3 demo_tx_in 0%nat 1%nat
    (two_lists ∅ 0%nat 1%nat [Int 172; Int 0x51] [Bytes [x07]])
  = (Ok false, two_lists ∅ 0%nat 1%nat [Int 0x51] [Bytes [x07]]).
Proof.
  apply (proj1
    (opcode_dispatch_is_fail_fast demo_OP_CODE_FUNCTIONS demo_OP_CODE_NAMES
       demo_op_hash160 demo_op_equal demo_sha256 ∅ 0%nat 1%nat demo_tx_in
       ltac:(lia) 2%nat 172 demo_op_checksig [Int 0x51] [Bytes [x07]]
       eq_refl (ex_intro _ "OP"%string eq_refl))).
  reflexivity.
Defined.

Lemma evaluate_leaves_items_unchanged_witness :
  (evaluate demo_OP_CODE_FUNCTIONS demo_OP_CODE_NAMES demo_op_hash160
     demo_op_equal demo_sha256 5 0%nat demo_tx_in
     {[ 0%nat := [Bytes [x51]; Int 0xa9; Bytes zeros20; Int 0x87] ]}).2
  !! 0%nat
  = Some [Bytes [x51]; Int 0xa9; Bytes zeros20; Int 0x87].
Proof.
  apply (evaluate_leaves_items_unchanged demo_OP_CODE_FUNCTIONS
           demo_OP_CODE_NAMES demo_op_hash160 demo_op_equal demo_sha256
           5%nat 0%nat demo_tx_in
           {[ 0%nat := [Bytes [x51]; Int 0xa9; Bytes zeros20; Int 0x87] ]}
           [Bytes [x51]; Int 0xa9; Bytes zeros20; Int 0x87]).
  vm_compute. reflexivity.
Defined.

Lemma address_by_template_witness :
  address demo_p2pkh_address demo_p2sh_address demo_bech32
    (mkScript [Int 0x00; Bytes zeros20]) true
  = Ok (Some ([x74; x62] ++ x00 :: x14 :: zeros20)).
Proof.
  apply (proj1
    (address_by_template demo_p2pkh_address demo_p2sh_address demo_bech32
       (mkScript [Int 0x00; Bytes zeros20]) true) (P2WPKH zeros20)).
  split; reflexivity.
Defined.

(** Whole runs with the small opcode table: a pay-to-script-hash spend whose
    redeem script is OP_1, the same with a hash that does not match, and a
    pay-to-witness-pubkey-hash spend. *)
Example evaluate_p2sh :
  (demo_evaluate 5
     (mkScript [Bytes [x51]; Int 0xa9; Bytes zeros20; Int 0x87])
     demo_tx_in).1 = Ok true.
Proof. reflexivity. Qed.

Example evaluate_p2sh_bad_hash :
  (demo_evaluate 5
     (mkScript [Bytes [x51]; Int 0xa9; Bytes ones20; Int 0x87])
     demo_tx_in).1 = Ok false.
Proof. reflexivity. Qed.

Example evaluate_p2wpkh :
  (demo_evaluate 10 (mkScript [Int 0x00; Bytes zeros20]) demo_tx_in).1
  = Ok true.
Proof. reflexivity. Qed.

(** * More of script.py *)

(** ** raw_serialize: what it accepts and what it returns *)

Lemma raw_serialize_loop_fits (its : list item) (acc : bytes) :
  raw_serialize_loop its acc =
    if forallb fits_byte its then Ok (acc ++ spec_raw its)
    else Raise OverflowError.
Proof.
  revert acc. induction its as [|[n|d] its IH]; intros acc; simpl.
  - by rewrite app_nil_r.
  - rewrite int_to_little_endian_1.
    destruct ((0 <=? n) && (n <? 256)); simpl; [|done].
    rewrite IH. destruct (forallb fits_byte its); [|done].
    unfold spec_raw. simpl. by rewrite <- app_assoc.
  - rewrite int_to_little_endian_1.
    replace (0 <=? len d) with true
      by (symmetry; apply Z.leb_le; unfold len; lia).
    cbn [andb].
    destruct (len d <? 256); simpl; [|done].
    rewrite IH. destruct (forallb fits_byte its); [|done].
    unfold spec_raw. simpl. by rewrite <- app_assoc.
Qed.

(** X1. [raw_serialize] returns exactly when every opcode item is a byte
    value and every data item has at most 255 bytes, and then returns one
    byte per opcode item and a length byte followed by the bytes per data
    item; otherwise it raises OverflowError. *)
Theorem raw_serialize_accepts_bytes_only (self : Script) :
  raw_serialize self =
    if forallb fits_byte (items self) then Ok (spec_raw (items self))
    else Raise OverflowError.
Proof. unfold raw_serialize. by rewrite raw_serialize_loop_fits. Qed.

(** ** parse: what a returned script says about the stream *)

(** When the loop returns before the end of the stream, the bytes it read
    are the encoding of the items it added, and these are valid. *)
Lemma parse_loop_sound (fuel : nat) (length count : Z) (s rest : bytes)
    (acc its : list item) :
  parse_loop fuel length count s acc = Ok (its, rest) →
  rest ≠ [] →
  ∃ new, its = acc ++ new
       ∧ s = spec_raw new ++ rest
       ∧ valid_script (mkScript new) = true.
Proof.
  revert count s acc. induction fuel as [|fuel IH]; intros count s acc.
  - simpl. destruct (Z.ltb_spec count length); [done|].
    intros [= <- <-] _. exists []. by rewrite app_nil_r.
  - destruct (Z.lt_ge_cases count length) as [Hlt|Hge].
    2:{ rewrite parse_loop_exit by done. intros [= <- <-] _.
        exists []. by rewrite app_nil_r. }
    destruct s as [|c s1]; [by rewrite parse_loop_stream_end|].
    rewrite parse_loop_step by done.
    pose proof (byte_to_Z_range c) as Hc.
    destruct ((1 <=? byte_to_Z c) && (byte_to_Z c <=? 75)) eqn:Hpush;
      intros Hloop Hrest;
      destruct (IH _ _ _ Hloop Hrest) as (new & -> & Hs & Hv).
    + apply andb_true_iff in Hpush as [H1%Z.leb_le H2%Z.leb_le].
      set (n := Z.to_nat (byte_to_Z c)) in *.
      assert (Hn : List.length (take n s1) = n).
      { rewrite length_take. apply Nat.min_l.
        destruct (Nat.le_gt_cases n (List.length s1)) as [|Hshort]; [done|].
        rewrite drop_ge in Hs by lia.
        apply (f_equal List.length) in Hs. rewrite length_app in Hs.
        destruct rest; [done|]. simpl in Hs. lia. }
      exists (Bytes (take n s1) :: new). split; [by rewrite <- app_assoc|].
      split.
      * rewrite spec_raw_cons. cbn [spec_item_bytes app]. unfold len.
        rewrite Hn. unfold n. rewrite Z2Nat.id, byte_of_to_Z by lia.
        rewrite <- app_assoc, <- Hs. by rewrite take_drop.
      * apply valid_script_cons. split; [|done].
        apply valid_item_Bytes. unfold len. rewrite Hn. lia.
    + exists (Int (byte_to_Z c) :: new). split; [by rewrite <- app_assoc|].
      split.
      * rewrite spec_raw_cons. cbn [spec_item_bytes app].
        by rewrite byte_of_to_Z, <- Hs.
      * apply valid_script_cons. split; [|done]. apply valid_item_Int.
        apply andb_false_iff in Hpush as [?%Z.leb_gt|?%Z.leb_gt]; lia.
Qed.

(** X2. When [parse] returns with bytes left in the stream, the bytes it
    consumed after the varint are exactly the encoding of the items it
    returns (one byte per opcode item, a length byte and the bytes per data
    item), and the script is valid. *)
Theorem parse_consumed_is_encoding (s s1 rest : bytes) (length : Z)
    (x : Script) :
  read_varint s = Ok (length, s1) →
  parse s = Ok (x, rest) →
  rest ≠ [] →
  s1 = spec_raw (items x) ++ rest ∧ valid_script x = true.
Proof.
  intros Hvar. unfold parse. rewrite Hvar. simpl.
  destruct (parse_loop _ _ _ _ _) as [[its s2]|e] eqn:Hloop; simpl; [|done].
  intros [= <- <-] Hrest.
  destruct (parse_loop_sound _ _ _ _ _ _ _ Hloop Hrest) as (new & -> & Hs & Hv).
  done.
Qed.

Lemma parse_consumed_is_encoding_witness :
  [x76; x02; xaa; xbb; xff] = spec_raw [Int 0x76; Bytes [xaa; xbb]] ++ [xff]
  ∧ valid_script (mkScript [Int 0x76; Bytes [xaa; xbb]]) = true.
Proof.
  apply (parse_consumed_is_encoding [x04; x76; x02; xaa; xbb; xff]
           [x76; x02; xaa; xbb; xff] [xff] 4
           (mkScript [Int 0x76; Bytes [xaa; xbb]]) eq_refl eq_refl).
  discriminate.
Defined.

(** The loop returns whenever the stream holds the bytes that are still to
    be counted. *)
Lemma parse_loop_returns (fuel : nat) (length count : Z) (s : bytes)
    (acc : list item) :
  (Z.to_nat (length - count) ≤ fuel)%nat →
  length - count ≤ len s →
  ∃ its rest, parse_loop fuel length count s acc = Ok (its, rest).
Proof.
  revert count s acc. induction fuel as [|fuel IH]; intros count s acc Hf Hs.
  - rewrite parse_loop_exit by lia. eauto.
  - destruct (Z.lt_ge_cases count length) as [Hlt|Hge];
      [|rewrite parse_loop_exit by done; eauto].
    destruct s as [|c s1]; [unfold len in Hs; simpl in Hs; lia|].
    rewrite parse_loop_step by done.
    pose proof (byte_to_Z_range c) as Hc.
    unfold len in Hs. rewrite length_cons in Hs.
    destruct ((1 <=? byte_to_Z c) && (byte_to_Z c <=? 75)); apply IH;
      unfold len; rewrite ?length_drop; lia.
Qed.

(** X3. [parse] fails only on a stream that is shorter than it declares:
    when at least the declared number of bytes follow the varint, [parse]
    returns a script. *)
Theorem parse_returns_on_complete_stream (s s1 : bytes) (length : Z) :
  read_varint s = Ok (length, s1) →
  length ≤ len s1 →
  ∃ x rest, parse s = Ok (x, rest).
Proof.
  intros Hvar Hlen. unfold parse. rewrite Hvar. simpl.
  destruct (parse_loop_returns (Z.to_nat length) length 0 s1 [])
    as (its & rest & ->); [lia|lia|].
  simpl. eauto.
Qed.

Lemma parse_returns_on_complete_stream_witness :
  ∃ x rest, parse [x03; x02; xaa; xbb; x76] = Ok (x, rest).
Proof.
  apply (parse_returns_on_complete_stream [x03; x02; xaa; xbb; x76]
           [x02; xaa; xbb; x76] 3 eq_refl).
  unfold len. simpl. lia.
Defined.

(** ** serialize and parse together *)

Lemma valid_script_serializes (its : list item) (v : bytes) :
  valid_script (mkScript its) = true →
  encode_varint (len (spec_raw its)) = Ok v →
  serialize (mkScript its) = Ok (v ++ spec_raw its).
Proof.
  intros Hv Hvar. unfold serialize, raw_serialize. cbn [items].
  rewrite raw_serialize_loop_valid by done. simpl. by rewrite Hvar.
Qed.

Lemma valid_script_parses_back (its : list item) (v rest : bytes) :
  valid_script (mkScript its) = true →
  encode_varint (len (spec_raw its)) = Ok v →
  parse ((v ++ spec_raw its) ++ rest) = Ok (mkScript its, rest).
Proof.
  intros Hv Hvar. unfold parse. rewrite <- app_assoc.
  rewrite (read_encode_varint _ _ _ Hvar). simpl.
  rewrite parse_loop_items; [|done|lia|].
  - rewrite parse_loop_exit by lia. done.
  - pose proof (spec_raw_len_items its). unfold len in *. lia.
Qed.

Lemma valid_script_parsed (its : list item) :
  valid_script (mkScript its) = true ↔
  forallb parsed_item its = true ∧ ¬ In (Bytes []) its.
Proof.
  induction its as [|it its IH].
  - split; [|done]. intros _. split; [done|]. by intros [].
  - rewrite valid_script_cons, IH, valid_item_parsed. simpl.
    rewrite andb_true_iff. split.
    + intros [[H1 H2] [H3 H4]]. split; [done|]. intros [->|?]; done.
    + intros [[H1 H2] H3]. repeat split; try done.
      * intros ->. apply H3. by left.
      * intros ?. apply H3. by right.
Qed.

(** X4. A script that [parse] returned and that has no empty data item
    serializes, and parsing its serialization returns the same script and
    consumes all of it (its encoding being shorter than 2^64 bytes). *)
Theorem parsed_script_round_trips (s rest : bytes) (x : Script) :
  parse s = Ok (x, rest) →
  ¬ In (Bytes []) (items x) →
  len (spec_raw (items x)) < 2 ^ 64 →
  ∃ bs, serialize x = Ok bs ∧ parse bs = Ok (x, []).
Proof.
  intros Hparse Hne Hsize. apply parse_parsed_items in Hparse.
  destruct x as [its]. cbn [items] in *.
  assert (Hv : valid_script (mkScript its) = true)
    by (by apply valid_script_parsed).
  destruct (encode_varint_total (len (spec_raw its))) as [v Hvar];
    [unfold len in *; lia|].
  exists (v ++ spec_raw its). split; [by apply valid_script_serializes|].
  rewrite <- (app_nil_r (v ++ spec_raw its)).
  by apply valid_script_parses_back.
Qed.

Lemma parsed_script_round_trips_witness :
  ∃ bs, serialize (mkScript [Bytes [xaa; xbb; xcc]]) = Ok bs
      ∧ parse bs = Ok (mkScript [Bytes [xaa; xbb; xcc]], []).
Proof.
  apply (parsed_script_round_trips [x01; x03; xaa; xbb; xcc; xdd] [xdd]
           (mkScript [Bytes [xaa; xbb; xcc]]) eq_refl).
  - simpl. intros [H|[]]. discriminate H.
  - reflexivity.
Defined.

Lemma parse_loop_prefix (fuel : nat) (length count : Z) (s rest : bytes)
    (acc its : list item) :
  parse_loop fuel length count s acc = Ok (its, rest) →
  ∃ new, its = acc ++ new.
Proof.
  revert count s acc. induction fuel as [|fuel IH]; intros count s acc.
  - simpl. destruct (Z.ltb_spec count length); [done|].
    intros [= <- <-]. exists []. by rewrite app_nil_r.
  - destruct (Z.lt_ge_cases count length) as [Hlt|Hge].
    2:{ rewrite parse_loop_exit by done. intros [= <- <-].
        exists []. by rewrite app_nil_r. }
    destruct s as [|c s1]; [by rewrite parse_loop_stream_end|].
    rewrite parse_loop_step by done.
    destruct ((1 <=? byte_to_Z c) && (byte_to_Z c <=? 75));
      intros (new & ->)%IH; eexists; by rewrite <- app_assoc.
Qed.

(** X5. [serialize] accepts a data item of 76 to 255 bytes, but [parse] does
    not give it back: parsing the serialization of the one-item script
    returns a script that starts with the opcode item whose value is the
    length of the data. *)
Theorem long_data_item_does_not_round_trip (d : bytes) :
  76 ≤ len d ≤ 255 →
  ∃ bs x rest, serialize (mkScript [Bytes d]) = Ok bs
             ∧ parse bs = Ok (x, rest)
             ∧ ∃ tl, items x = Int (len d) :: tl.
Proof.
  intros Hd.
  assert (Hraw : spec_raw [Bytes d] = byte_of_Z (len d) :: d)
    by (unfold spec_raw; simpl; by rewrite app_nil_r).
  destruct (encode_varint_total (len (spec_raw [Bytes d]))) as [v Hvar].
  { rewrite Hraw. unfold len in *. rewrite length_cons. lia. }
  exists (v ++ spec_raw [Bytes d]).
  assert (Hser : serialize (mkScript [Bytes d]) = Ok (v ++ spec_raw [Bytes d])).
  { unfold serialize, raw_serialize. cbn [items].
    rewrite raw_serialize_loop_fits. cbn [forallb fits_byte andb].
    replace (len d <? 256) with true by (symmetry; apply Z.ltb_lt; lia).
    simpl. by rewrite Hvar. }
  unfold parse.
  rewrite <- (app_nil_r (v ++ _)), <- app_assoc.
  rewrite (read_encode_varint _ _ _ Hvar). rewrite app_nil_r, Hraw. simpl.
  set (length := len (byte_of_Z (len d) :: d)).
  assert (Hlength : length = len d + 1)
    by (unfold length, len; rewrite length_cons; lia).
  destruct (Z.to_nat length) as [|fuel] eqn:Hfuel; [lia|].
  rewrite parse_loop_step by lia.
  rewrite byte_to_of_Z, Z.mod_small by lia.
  replace ((1 <=? len d) && (len d <=? 75)) with false
    by (symmetry; apply andb_false_iff; right; apply Z.leb_gt; lia).
  destruct (parse_loop_returns fuel length (0 + 1) d ([] ++ [Int (len d)]))
    as (its & rest & Hloop); [lia|lia|].
  rewrite Hloop. simpl. exists (mkScript its), rest.
  split; [by rewrite <- Hraw|]. split; [done|].
  apply parse_loop_prefix in Hloop as [new ->]. by exists new.
Qed.

Lemma long_data_item_does_not_round_trip_witness :
  ∃ bs x rest, serialize (mkScript [Bytes (repeat x01 76)]) = Ok bs
             ∧ parse bs = Ok (x, rest)
             ∧ ∃ tl, items x = Int (len (repeat x01 76)) :: tl.
Proof.
  apply (long_data_item_does_not_round_trip (repeat x01 76)).
  unfold len. simpl. lia.
Defined.

(** ** The four templates *)

(** X6. No script passes two of the four template tests: a script is at most
    one of p2pkh, p2sh, p2wpkh and p2wsh. *)
Theorem template_tests_are_exclusive (self : Script) :
  (is_p2pkh_script_pubkey self = true →
     is_p2sh_script_pubkey self = false
     ∧ is_p2wpkh_script_pubkey self = false
     ∧ is_p2wsh_script_pubkey self = false)
  ∧ (is_p2sh_script_pubkey self = true →
       is_p2wpkh_script_pubkey self = false
       ∧ is_p2wsh_script_pubkey self = false)
  ∧ (is_p2wpkh_script_pubkey self = true →
       is_p2wsh_script_pubkey self = false).
Proof.
  split; [|split].
  - intros [h [Hh _]]%is_p2pkh_shape. repeat split.
    + destruct (is_p2sh_script_pubkey self) eqn:E; [|done].
      apply is_p2sh_shape in E as [h' [E _]]. rewrite Hh in E. done.
    + destruct (is_p2wpkh_script_pubkey self) eqn:E; [|done].
      apply is_p2wpkh_shape in E as [h' [E _]]. rewrite Hh in E. done.
    + destruct (is_p2wsh_script_pubkey self) eqn:E; [|done].
      apply is_p2wsh_shape in E as [h' [E _]]. rewrite Hh in E. done.
  - intros [h [Hh _]]%is_p2sh_shape. split.
    + destruct (is_p2wpkh_script_pubkey self) eqn:E; [|done].
      apply is_p2wpkh_shape in E as [h' [E _]]. rewrite Hh in E. done.
    + destruct (is_p2wsh_script_pubkey self) eqn:E; [|done].
      apply is_p2wsh_shape in E as [h' [E _]]. rewrite Hh in E. done.
  - intros [h [Hh Hlen]]%is_p2wpkh_shape.
    destruct (is_p2wsh_script_pubkey self) eqn:E; [|done].
    apply is_p2wsh_shape in E as [h' [E Hlen']]. rewrite Hh in E.
    simpl in *. injection E as <-. lia.
Qed.

Lemma template_tests_are_exclusive_witness :
  is_p2sh_script_pubkey (p2pkh_script (Bytes zeros20)) = false
  ∧ is_p2wpkh_script_pubkey (p2pkh_script (Bytes zeros20)) = false
  ∧ is_p2wsh_script_pubkey (p2pkh_script (Bytes zeros20)) = false.
Proof.
  apply (proj1 (template_tests_are_exclusive (p2pkh_script (Bytes zeros20)))).
  reflexivity.
Defined.

Section MoreAddressProperties.

Context {address_string : Type}.
Variable h160_to_p2pkh_address : item → bool → address_string.
Variable h160_to_p2sh_address : item → bool → address_string.
Variable encode_bech32_checksum : bytes → bytes → address_string.

Local Abbreviation script_address :=
  (address h160_to_p2pkh_address h160_to_p2sh_address encode_bech32_checksum).

(** X7. [address] raises nothing of its own: for every script, whatever its
    items, the indexing is in range and the raw serialization exists, and
    the method returns an address or no result. *)
Theorem address_never_raises (self : Script) (testnet : bool) :
  ∃ r, script_address self testnet = Ok r.
Proof.
  unfold address.
  destruct (is_p2pkh_script_pubkey self) eqn:E1.
  { apply is_p2pkh_shape in E1 as [h [-> _]]. simpl. eauto. }
  destruct (is_p2sh_script_pubkey self) eqn:E2.
  { apply is_p2sh_shape in E2 as [h [-> _]]. simpl. eauto. }
  destruct (is_p2wpkh_script_pubkey self) eqn:E3.
  { apply is_p2wpkh_shape in E3 as [h [Hh Hlen]].
    destruct self as [its]. simpl in *. subst its.
    rewrite (raw_serialize_witness_program h (byte_of_Z (len h)));
      [simpl; eauto|lia|done]. }
  destruct (is_p2wsh_script_pubkey self) eqn:E4.
  { apply is_p2wsh_shape in E4 as [h [Hh Hlen]].
    destruct self as [its]. simpl in *. subst its.
    rewrite (raw_serialize_witness_program h (byte_of_Z (len h)));
      [simpl; eauto|lia|done]. }
  eauto.
Qed.

(** X8. The address of a script built by [p2pkh_script] or [p2sh_script] is
    the p2pkh, respectively p2sh, encoding of the hash it was built from
    when that hash is a 20-byte string, and no result otherwise. The two
    witness builders are one function: the script they build has the bech32
    encoding of [00 14 hash] for a 20-byte hash, of [00 20 hash] for a
    32-byte one, and no address otherwise. *)
Theorem address_of_built_scripts (h : bytes) (testnet : bool) :
  script_address (p2pkh_script (Bytes h)) testnet
  = Ok (if len h =? 20
        then Some (h160_to_p2pkh_address (Bytes h) testnet) else None)
  ∧ script_address (p2sh_script (Bytes h)) testnet
    = Ok (if len h =? 20
          then Some (h160_to_p2sh_address (Bytes h) testnet) else None)
  ∧ p2wsh_script (Bytes h) = p2wpkh_script (Bytes h)
  ∧ script_address (p2wpkh_script (Bytes h)) testnet
    = Ok (if len h =? 20 then
            Some (encode_bech32_checksum (x00 :: x14 :: h)
                    (bech32_prefix testnet))
          else if len h =? 32 then
            Some (encode_bech32_checksum (x00 :: x20 :: h)
                    (bech32_prefix testnet))
          else None).
Proof.
  repeat split.
  - unfold address, is_p2pkh_script_pubkey, is_p2sh_script_pubkey,
      is_p2wpkh_script_pubkey, is_p2wsh_script_pubkey, item_is, bytes_of_len.
    simpl. by destruct (len h =? 20).
  - unfold address, is_p2pkh_script_pubkey, is_p2sh_script_pubkey,
      is_p2wpkh_script_pubkey, is_p2wsh_script_pubkey, item_is, bytes_of_len.
    simpl. by destruct (len h =? 20).
  - unfold address, is_p2pkh_script_pubkey, is_p2sh_script_pubkey,
      is_p2wpkh_script_pubkey, is_p2wsh_script_pubkey, item_is, bytes_of_len.
    cbn [items p2wpkh_script lookup list_lookup].
    change (len [Int 0; Bytes h]) with 2. cbn [Z.eqb Pos.eqb andb].
    rewrite (bool_decide_eq_true_2 (Int 0 = Int 0)) by done. cbn [andb].
    change (p2wpkh_script (Bytes h)) with (mkScript [Int 0; Bytes h]).
    destruct (Z.eqb_spec (len h) 20) as [H20|H20].
    + rewrite (raw_serialize_witness_program h x14);
        [done|lia|by rewrite H20].
    + destruct (Z.eqb_spec (len h) 32) as [H32|H32]; [|done].
      rewrite (raw_serialize_witness_program h x20);
        [done|lia|by rewrite H32].
Qed.

End MoreAddressProperties.

(** ** The wire format of the built scripts *)

Lemma serialize_small (its : list item) (n : Z) :
  forallb fits_byte its = true →
  len (spec_raw its) = n →
  0 ≤ n < 0xfd →
  serialize (mkScript its) = Ok (byte_of_Z n :: spec_raw its).
Proof.
  intros Hfits Hlen Hn. unfold serialize, raw_serialize. cbn [items].
  rewrite raw_serialize_loop_fits, Hfits. cbn [mbind outcome_bind app].
  rewrite Hlen. unfold encode_varint.
  replace (n <? 253) with true by (symmetry; apply Z.ltb_lt; lia).
  rewrite int_to_little_endian_1.
  replace ((0 <=? n) && (n <? 256)) with true
    by (symmetry; apply andb_true_iff; split;
        [apply Z.leb_le|apply Z.ltb_lt]; lia).
  done.
Qed.

(** X9. The serializations of the built scripts: [19 76 a9 14 hash 88 ac]
    for p2pkh and [17 a9 14 hash 87] for p2sh with a 20-byte hash,
    [16 00 14 hash] for the witness script of a 20-byte hash and
    [22 00 20 hash] for that of a 32-byte hash. *)
Theorem built_scripts_wire_format (h : bytes) :
  (len h = 20 →
     serialize (p2pkh_script (Bytes h))
     = Ok (x19 :: x76 :: xa9 :: x14 :: h ++ [x88; xac])
     ∧ serialize (p2sh_script (Bytes h))
       = Ok (x17 :: xa9 :: x14 :: h ++ [x87])
     ∧ serialize (p2wpkh_script (Bytes h)) = Ok (x16 :: x00 :: x14 :: h))
  ∧ (len h = 32 →
       serialize (p2wsh_script (Bytes h)) = Ok (x22 :: x00 :: x20 :: h)).
Proof.
  split.
  - intros Hlen. repeat split.
    + unfold p2pkh_script.
      rewrite (serialize_small _ 25).
      * unfold spec_raw. cbn [fmap list_fmap spec_item_bytes concat app].
        by rewrite Hlen.
      * cbn [forallb fits_byte]. by rewrite Hlen.
      * unfold spec_raw, len in *.
        cbn [fmap list_fmap spec_item_bytes concat app length].
        rewrite length_app. cbn [length]. lia.
      * lia.
    + unfold p2sh_script.
      rewrite (serialize_small _ 23).
      * unfold spec_raw. cbn [fmap list_fmap spec_item_bytes concat app].
        by rewrite Hlen.
      * cbn [forallb fits_byte]. by rewrite Hlen.
      * unfold spec_raw, len in *.
        cbn [fmap list_fmap spec_item_bytes concat app length].
        rewrite length_app. cbn [length]. lia.
      * lia.
    + unfold p2wpkh_script.
      rewrite (serialize_small _ 22).
      * unfold spec_raw. cbn [fmap list_fmap spec_item_bytes concat app].
        by rewrite Hlen, app_nil_r.
      * cbn [forallb fits_byte]. by rewrite Hlen.
      * unfold spec_raw, len in *.
        cbn [fmap list_fmap spec_item_bytes concat app length].
        rewrite app_nil_r. lia.
      * lia.
  - intros Hlen. unfold p2wsh_script.
    rewrite (serialize_small _ 34).
    + unfold spec_raw. cbn [fmap list_fmap spec_item_bytes concat app].
      by rewrite Hlen, app_nil_r.
    + cbn [forallb fits_byte]. by rewrite Hlen.
    + unfold spec_raw, len in *.
      cbn [fmap list_fmap spec_item_bytes concat app length].
      rewrite app_nil_r. lia.
    + lia.
Qed.

Lemma built_scripts_wire_format_witness :
  serialize (p2pkh_script (Bytes zeros20))
  = Ok (x19 :: x76 :: xa9 :: x14 :: zeros20 ++ [x88; xac])
  ∧ serialize (p2sh_script (Bytes zeros20))
    = Ok (x17 :: xa9 :: x14 :: zeros20 ++ [x87])
  ∧ serialize (p2wpkh_script (Bytes zeros20))
    = Ok (x16 :: x00 :: x14 :: zeros20).
Proof.
  apply (proj1 (built_scripts_wire_format zeros20)). reflexivity.
Defined.

(** ** multisig_redeem_script *)

Section MultisigProperties.

Context {point : Type}.
Variable sec : point → bytes.

Lemma multisig_points_app (points : list point) (acc : list item) :
  multisig_points sec points acc = acc ++ ((λ p, Bytes (sec p)) <$> points).
Proof.
  revert acc. induction points as [|p points IH]; intros acc; simpl.
  - by rewrite app_nil_r.
  - by rewrite IH, <- app_assoc.
Qed.

Lemma sec_items_valid (points : list point) :
  (∀ p, In p points → 1 ≤ len (sec p) ≤ 75) →
  valid_script (mkScript ((λ p, Bytes (sec p)) <$> points)) = true
  ∧ len (spec_raw ((λ p, Bytes (sec p)) <$> points)) ≤ 76 * len points.
Proof.
  induction points as [|p points IH]; intros Hsec; [done|].
  destruct IH as [IH1 IH2]; [intros q Hq; apply Hsec; by right|].
  assert (Hp := Hsec p (or_introl eq_refl)).
  cbn [fmap list_fmap]. split.
  - apply valid_script_cons. split; [by apply valid_item_Bytes|done].
  - rewrite spec_raw_cons. cbn [spec_item_bytes]. unfold len in *.
    rewrite length_app, !length_cons. lia.
Qed.

(** X10. [multisig_redeem_script(m, points)] is the opcode m + 0x50, one
    data item per point, the opcode n + 0x50 and 0xae. With m and n up to
    175 and encodings of 1 to 75 bytes it serializes, and parsing the
    serialization gives the same script back. *)
Theorem multisig_redeem_script_round_trips (m : Z) (points : list point) :
  0 ≤ m ≤ 175 →
  len points ≤ 175 →
  (∀ p, In p points → 1 ≤ len (sec p) ≤ 75) →
  items (multisig_redeem_script sec m points)
  = Int (m + 0x50) :: ((λ p, Bytes (sec p)) <$> points)
      ++ [Int (len points + 0x50); Int 0xae]
  ∧ ∃ bs, serialize (multisig_redeem_script sec m points) = Ok bs
        ∧ parse bs = Ok (multisig_redeem_script sec m points, []).
Proof.
  intros Hm Hn Hsec.
  assert (Hitems : multisig_redeem_script sec m points
    = mkScript (([Int (m + 0x50)] ++ ((λ p, Bytes (sec p)) <$> points))
                ++ [Int (len points + 0x50); Int 0xae])).
  { unfold multisig_redeem_script. cbv zeta. rewrite multisig_points_app.
    by rewrite <- !app_assoc. }
  rewrite Hitems. split; [by rewrite <- app_assoc|].
  destruct (sec_items_valid points Hsec) as [Hv Hsize].
  set (its := ([Int (m + 0x50)] ++ _) ++ _).
  assert (Hvalid : valid_script (mkScript its) = true).
  { unfold its. rewrite !valid_script_app. repeat split; [|done|].
    - apply valid_script_cons. split; [|done]. apply valid_item_Int. lia.
    - apply valid_script_cons.
      split; [apply valid_item_Int; unfold len in *; lia|].
      apply valid_script_cons. split; [|done]. apply valid_item_Int. lia. }
  destruct (encode_varint_total (len (spec_raw its))) as [v Hvar].
  { unfold its. rewrite !spec_raw_app. unfold len in *.
    rewrite !length_app. cbn [spec_raw fmap list_fmap concat app length
      spec_item_bytes] in *. lia. }
  exists (v ++ spec_raw its). split; [by apply valid_script_serializes|].
  rewrite <- (app_nil_r (v ++ spec_raw its)).
  by apply valid_script_parses_back.
Qed.

End MultisigProperties.

Lemma multisig_redeem_script_round_trips_witness :
  ∃ bs, serialize (multisig_redeem_script (λ p : bytes, p) 1
                     [[x02; xaa]; [x03; xbb]]) = Ok bs
      ∧ parse bs = Ok (multisig_redeem_script (λ p : bytes, p) 1
                         [[x02; xaa]; [x03; xbb]], []).
Proof.
  apply (multisig_redeem_script_round_trips (λ p : bytes, p) 1
           [[x02; xaa]; [x03; xbb]]).
  - lia.
  - unfold len. simpl. lia.
  - simpl. intros p [<-|[<-|[]]]; unfold len; simpl; lia.
Defined.

(** ** More of the interpreter *)

Section MoreInterpreterProperties.

Context {sighash : Type}.
Variable OP_CODE_FUNCTIONS : Z → option (@opcode_function sighash).
Variable OP_CODE_NAMES : Z → option string.
Variable op_hash160 : list item → outcome (bool * list item).
Variable op_equal : list item → outcome (bool * list item).
Variable helper_sha256 : bytes → bytes.

Local Abbreviation exec_op' := (exec_op OP_CODE_FUNCTIONS OP_CODE_NAMES).
Local Abbreviation step' :=
  (step OP_CODE_FUNCTIONS OP_CODE_NAMES op_hash160 op_equal helper_sha256).
Local Abbreviation eval_loop' :=
  (eval_loop OP_CODE_FUNCTIONS OP_CODE_NAMES op_hash160 op_equal
     helper_sha256).
Local Abbreviation run_from' :=
  (run_from OP_CODE_FUNCTIONS OP_CODE_NAMES op_hash160 op_equal
     helper_sha256).
Local Abbreviation evaluate' :=
  (evaluate OP_CODE_FUNCTIONS OP_CODE_NAMES op_hash160 op_equal
     helper_sha256).

Variable tx_in : @TxIn sighash.

(** [evaluate] is the loop run on two new list objects: the copy of the
    items and the empty stack. *)
Lemma evaluate_unfold (fuel : nat) (self_items : loc)
    (h : gmap nat (list item)) (its : list item) :
  h !! self_items = Some its →
  let items := fresh (dom h) in
  let stack := fresh (dom (<[items:=its]> h)) in
  items ≠ stack
  ∧ evaluate' fuel self_items tx_in h
    = run_from' fuel tx_in items stack (two_lists h items stack its []).
Proof.
  intros Hself items stack.
  assert (Hne : items ≠ stack).
  { intros Heq. apply (is_fresh (dom (<[items:=its]> h))). fold stack.
    rewrite <- Heq, dom_insert. set_solver. }
  split; [done|].
  unfold evaluate, list_copy. rewrite !bind_run. unfold get at 1.
  rewrite Hself. cbv beta iota. unfold alloc at 1. cbv beta iota zeta.
  rewrite bind_run. unfold alloc. cbv beta iota zeta.
  fold items. fold stack. unfold two_lists.
  by rewrite (insert_insert_ne _ stack items) by done.
Qed.

Section Loop.

Variables (h : gmap nat (list item)) (items stack : loc).
Hypothesis distinct : items ≠ stack.

(** An opcode item: whatever the opcode function does, the store afterwards
    holds the rest of the queue and some stack. *)
Lemma step_int_store (n : Z) (q st : list item) :
  ∃ r st',
    step' tx_in items stack (two_lists h items stack (Int n :: q) st)
    = (r, two_lists h items stack q st')
    ∧ (r = Raise OutOfFuel →
       ∃ f x, OP_CODE_FUNCTIONS n = Some f ∧ f st x = Raise OutOfFuel).
Proof.
  rewrite step_int by done. unfold exec_op, print_bad_op.
  destruct (OP_CODE_FUNCTIONS n) as [operation|] eqn:Hop.
  2:{ eexists _, st. split; [done|]. discriminate. }
  destruct (is_signing_op n);
    rewrite bind_run, call_op_stack by done;
    match goal with
    | |- context [operation st ?x] =>
        destruct (operation st x) as [[[] st']|e] eqn:Hcall
    end; cbn [negb]; cbv beta iota;
    try rewrite bind_run; try destruct (OP_CODE_NAMES n);
    cbv beta iota;
    eexists _, _; (split; [reflexivity|]); try discriminate;
    intros [= ->]; eauto.
Qed.

(** X11. Executing an opcode item never changes the item queue: whatever
    the opcode function returns or raises, the queue afterwards is the rest
    of the queue, so that only data pushes can put items into it. *)
Theorem opcode_leaves_queue (n : Z) (q st : list item) :
  ∃ r st',
    step' tx_in items stack (two_lists h items stack (Int n :: q) st)
    = (r, two_lists h items stack q st').
Proof.
  destruct (step_int_store n q st) as (r & st' & Hstep & _). eauto.
Qed.

(** X12. An opcode that the opcode table does not have makes [evaluate]
    raise KeyError, not return false; so does an opcode whose function
    returns failure and that has no entry in the table of names, from the
    message that is printed. *)
Theorem unknown_opcode_raises_KeyError (fuel : nat) (n : Z)
    (q st : list item) :
  (OP_CODE_FUNCTIONS n = None →
     run_from' (S fuel) tx_in items stack
       (two_lists h items stack (Int n :: q) st)
     = (Raise KeyError, two_lists h items stack q st))
  ∧ (∀ operation st',
       OP_CODE_FUNCTIONS n = Some operation →
       OP_CODE_NAMES n = None →
       operation st (if is_signing_op n then Some (sig_hash tx_in) else None)
       = Ok (false, st') →
       run_from' (S fuel) tx_in items stack
         (two_lists h items stack (Int n :: q) st)
       = (Raise KeyError, two_lists h items stack q st')).
Proof.
  split.
  - intros Hop. rewrite run_from_cons, step_int by done.
    unfold exec_op. by rewrite Hop.
  - intros operation st' Hop Hname Hcall.
    rewrite run_from_cons, step_int by done.
    unfold exec_op, print_bad_op. rewrite Hop.
    destruct (is_signing_op n);
      rewrite bind_run, call_op_stack, Hcall by done;
      cbn [negb]; cbv beta iota; by rewrite bind_run, Hname.
Qed.


(** A run of opcode items only: one pass per item, and [OutOfFuel] can
    only come out of an opcode function. *)
Lemma opcodes_only_run (q : list item) (fuel : nat) (st : list item) :
  (∀ n f st x, OP_CODE_FUNCTIONS n = Some f → f st x ≠ Raise OutOfFuel) →
  forallb is_int q = true →
  (length q ≤ fuel)%nat →
  (run_from' fuel tx_in items stack (two_lists h items stack q st)).1
  ≠ Raise OutOfFuel.
Proof.
  intros Hops. revert fuel st.
  induction q as [|it q IH]; intros fuel st Hq Hfuel.
  - unfold run_from. rewrite bind_run, eval_loop_nil by done.
    cbv beta iota. rewrite finish_run by done. by destruct (last st).
  - destruct it as [n|]; [|done]. simpl in Hq.
    destruct fuel as [|fuel]; [simpl in Hfuel; lia|].
    rewrite run_from_cons by done.
    destruct (step_int_store n q st) as (r & st' & -> & Hr).
    destruct r as [[b|]|e]; simpl.
    + done.
    + apply IH; [done|]. simpl in Hfuel. lia.
    + intros [= ->]. destruct Hr as (f & x & Hf & Hfx); [done|].
      by apply (Hops n f st x Hf).
Qed.

End Loop.

(** X14. The two smallest scripts: [evaluate] of the empty script returns
    false, and [evaluate] of a script that is one data item returns true,
    whatever the bytes of the item and the signing context. *)
Theorem evaluate_smallest_scripts (fuel : nat) (self_items : loc)
    (h : gmap nat (list item)) :
  (h !! self_items = Some [] →
     (evaluate' fuel self_items tx_in h).1 = Ok false)
  ∧ (∀ d, h !! self_items = Some [Bytes d] →
       (evaluate' (S fuel) self_items tx_in h).1 = Ok true).
Proof.
  split.
  - intros Hself.
    destruct (evaluate_unfold fuel self_items h [] Hself) as [Hne ->].
    unfold run_from. rewrite bind_run, eval_loop_nil by done.
    cbv beta iota. by rewrite finish_run by done.
  - intros d Hself.
    destruct (evaluate_unfold (S fuel) self_items h [Bytes d] Hself)
      as [Hne ->].
    rewrite run_from_cons, step_bytes, push_data_run, and_then_run by done.
    rewrite p2sh_rule_skip by done. rewrite and_then_run.
    rewrite p2wpkh_rule_skip by done. rewrite p2wsh_rule_skip by done.
    unfold run_from. rewrite bind_run, eval_loop_nil by done.
    cbv beta iota. by rewrite finish_run by done.
Qed.

(** X15. A script of opcode items only is done within one pass per item:
    with a bound of at least the number of items, [evaluate] does not stop
    for lack of fuel (no opcode function raising that by itself). *)
Theorem opcode_script_terminates (fuel : nat) (self_items : loc)
    (h : gmap nat (list item)) (its : list item) :
  (∀ n f st x, OP_CODE_FUNCTIONS n = Some f → f st x ≠ Raise OutOfFuel) →
  h !! self_items = Some its →
  forallb is_int its = true →
  (length its ≤ fuel)%nat →
  (evaluate' fuel self_items tx_in h).1 ≠ Raise OutOfFuel.
Proof.
  intros Hops Hself Hits Hfuel.
  destruct (evaluate_unfold fuel self_items h its Hself) as [Hne ->].
  by apply opcodes_only_run.
Qed.

(** X16. Spending a 20-byte witness program: when opcode 0 pushes the
    integer 0, [evaluate] of the script [0 <20-byte hash>] goes on, after
    two passes and with an empty stack, with the witness items followed by
    the P2PKH script of the hash as its queue. *)
Theorem p2wpkh_runs_witness_then_p2pkh (fuel : nat) (self_items : loc)
    (h : gmap nat (list item)) (h20 : bytes) (op_0 : opcode_function) :
  h !! self_items = Some [Int 0; Bytes h20] →
  len h20 = 20 →
  OP_CODE_FUNCTIONS 0 = Some op_0 →
  op_0 [] None = Ok (true, [Int 0]) →
  let items := fresh (dom h) in
  let stack := fresh (dom (<[items:=[Int 0; Bytes h20]]> h)) in
  evaluate' (S (S fuel)) self_items tx_in h
  = run_from' fuel tx_in items stack
      (two_lists h items stack
         ((Bytes <$> witness_program tx_in)
            ++ [Int 0x76; Int 0xa9; Bytes h20; Int 0x88; Int 0xac]) []).
Proof.
  intros Hself Hlen Hop Hcall items stack.
  destruct (evaluate_unfold (S (S fuel)) self_items h _ Hself) as [Hne ->].
  fold items stack. change (items ≠ stack) in Hne.
  clearbody stack. clearbody items.
  rewrite run_from_cons, step_int by done. unfold exec_op.
  rewrite Hop. change (is_signing_op 0) with false. cbv beta iota.
  rewrite bind_run, call_op_stack, Hcall by done. cbn [negb].
  unfold mret, M_ret. cbv beta iota.
  rewrite run_from_cons, step_bytes, push_data_run, and_then_run by done.
  rewrite p2sh_rule_skip by done. cbn [app]. rewrite and_then_run.
  rewrite p2wpkh_rule_fires by done. by rewrite p2wsh_rule_skip.
Qed.



End MoreInterpreterProperties.

(** ** __repr__ *)

Lemma string_append_nil_r (s : string) : String.append s "" = s.
Proof.
  induction s as [|c s IH]; [done|].
  change (String c (String.append s "") = String c s). by rewrite IH.
Qed.

Lemma string_append_assoc (s1 s2 s3 : string) :
  String.append s1 (String.append s2 s3)
  = String.append (String.append s1 s2) s3.
Proof.
  induction s1 as [|c s1 IH]; [done|].
  change (String c (String.append s1 (String.append s2 s3))
          = String c (String.append (String.append s1 s2) s3)).
  by rewrite IH.
Qed.

Section ReprProperties.

Variable OP_CODE_NAMES : Z → option string.

Local Abbreviation repr_loop' := (repr_loop OP_CODE_NAMES).
Local Abbreviation repr' := (repr OP_CODE_NAMES).

Lemma repr_loop_acc (its : list item) (acc : string) :
  repr_loop' its acc
  = (r ← repr_loop' its ""; Ok (String.append acc r)).
Proof.
  revert acc. induction its as [|[n|d] its IH]; intros acc; simpl.
  - by rewrite string_append_nil_r.
  - destruct (OP_CODE_NAMES n) as [name|]; [|done].
    change (String.append "" (String.append name " "))
      with (String.append name " ").
    rewrite (IH (String.append acc _)), (IH (String.append name " ")).
    destruct (repr_loop' its ""); simpl; [|done].
    by rewrite <- string_append_assoc.
  - change (String.append "" (String.append (hex d) " "))
      with (String.append (hex d) " ").
    rewrite (IH (String.append acc _)), (IH (String.append (hex d) " ")).
    destruct (repr_loop' its ""); simpl; [|done].
    by rewrite <- string_append_assoc.
Qed.

Lemma repr_loop_app (xs ys : list item) (acc : string) :
  repr_loop' (xs ++ ys) acc = (r ← repr_loop' xs acc; repr_loop' ys r).
Proof.
  revert acc. induction xs as [|[n|d] xs IH]; intros acc; simpl; [done| |].
  - destruct (OP_CODE_NAMES n); [apply IH|done].
  - apply IH.
Qed.

Lemma repr_loop_raises (its : list item) (acc : string) (e : exn) :
  repr_loop' its acc = Raise e ↔
  e = KeyError ∧ ∃ n, In (Int n) its ∧ OP_CODE_NAMES n = None.
Proof.
  revert acc. induction its as [|[n|d] its IH]; intros acc; simpl.
  - split; [done|]. by intros [_ (n & [] & _)].
  - destruct (OP_CODE_NAMES n) as [name|] eqn:Hn.
    + rewrite IH. split; intros [-> (k & Hk & Hname)]; (split; [done|]).
      * exists k. split; [by right|done].
      * exists k. split; [|done]. destruct Hk as [[= ->]|Hk]; [|done].
        congruence.
    + split.
      * intros [= <-]. split; [done|]. exists n. split; [by left|done].
      * by intros [-> _].
  - rewrite IH. split; intros [-> (k & Hk & Hname)]; (split; [done|]).
    + exists k. split; [by right|done].
    + exists k. split; [|done]. destruct Hk as [[=]|Hk]; done.
Qed.

(** X18. [__repr__] raises exactly when some opcode item of the script has
    no entry in the table of names, and then KeyError; and the text of a sum
    of two scripts is the text of the first followed by the text of the
    second. *)
Theorem repr_names_every_opcode (a b : Script) :
  (∀ e, repr' a = Raise e ↔
        e = KeyError ∧ ∃ n, In (Int n) (items a) ∧ OP_CODE_NAMES n = None)
  ∧ repr' (add a b)
    = (ra ← repr' a; rb ← repr' b; Ok (String.append ra rb)).
Proof.
  split; [intros e; apply repr_loop_raises|].
  unfold repr, add. cbn [items]. rewrite repr_loop_app.
  destruct (repr_loop' (items a) "") as [ra|e]; simpl; [|done].
  apply repr_loop_acc.
Qed.

End ReprProperties.

(** ** The further properties at concrete inputs *)

Lemma opcode_leaves_queue_witness :
  ∃ r st',
    demo_step demo_tx_in 0%nat 1%nat
      (two_lists ∅ 0%nat 1%nat [Int 0x76; Int 0x51] [])
    = (r, two_lists ∅ 0%nat 1%nat [Int 0x51] st').
Proof.
  apply (opcode_leaves_queue demo_OP_CODE_FUNCTIONS demo_OP_CODE_NAMES
           demo_op_hash160 demo_op_equal demo_sha256 demo_tx_in
           ∅ 0%nat 1%nat ltac:(lia) 0x76 [Int 0x51] []).
Defined.

Lemma unknown_opcode_raises_KeyError_witness :
  run_from demo_OP_CODE_FUNCTIONS demo_OP_CODE_NAMES demo_op_hash160
    demo_op_equal demo_sha256 1 demo_tx_in 0%nat 1%nat
    (two_lists ∅ 0%nat 1%nat [Int 0x99; Int 0x51] [])
  = (Raise KeyError, two_lists ∅ 0%nat 1%nat [Int 0x51] []).
Proof.
  apply (proj1
    (unknown_opcode_raises_KeyError demo_OP_CODE_FUNCTIONS demo_OP_CODE_NAMES
       demo_op_hash160 demo_op_equal demo_sha256 demo_tx_in
       ∅ 0%nat 1%nat ltac:(lia) 0%nat 0x99 [Int 0x51] [])).
  reflexivity.
Defined.


Lemma evaluate_smallest_scripts_witness :
  (evaluate demo_OP_CODE_FUNCTIONS demo_OP_CODE_NAMES demo_op_hash160
     demo_op_equal demo_sha256 1 0%nat demo_tx_in
     {[ 0%nat := [Bytes []] ]}).1 = Ok true.
Proof.
  apply (proj2
    (evaluate_smallest_scripts demo_OP_CODE_FUNCTIONS demo_OP_CODE_NAMES
       demo_op_hash160 demo_op_equal demo_sha256 demo_tx_in 0%nat 0%nat
       {[ 0%nat := [Bytes []] ]}) []).
  vm_compute. reflexivity.
Defined.

Lemma demo_op_equal_returns (st : list item) :
  ∃ b st', demo_op_equal st = Ok (b, st').
Proof.
  unfold demo_op_equal. destruct (last st), (last (but_last st)); eauto.
Qed.

Lemma demo_ops_never_out_of_fuel (n : Z)
    (f : list item → option unit → outcome (bool * list item))
    (st : list item) (x : option unit) :
  demo_OP_CODE_FUNCTIONS n = Some f → f st x ≠ Raise OutOfFuel.
Proof.
  unfold demo_OP_CODE_FUNCTIONS.
  repeat match goal with
  | |- context [if ?b then _ else _] => destruct b
  end; intros [= <-]; cbv beta;
    unfold demo_op_equalverify;
    try (destruct (demo_op_equal_returns st) as (b & st' & ->));
    unfold demo_op_dup, demo_op_hash160, demo_op_checksig;
    repeat match goal with
    | |- context [match ?t with _ => _ end] => destruct t
    end; discriminate.
Qed.

Lemma opcode_script_terminates_witness :
  (evaluate demo_OP_CODE_FUNCTIONS demo_OP_CODE_NAMES demo_op_hash160
     demo_op_equal demo_sha256 2 0%nat demo_tx_in
     {[ 0%nat := [Int 0x51; Int 0x76] ]}).1 ≠ Raise OutOfFuel.
Proof.
  apply (opcode_script_terminates demo_OP_CODE_FUNCTIONS demo_OP_CODE_NAMES
           demo_op_hash160 demo_op_equal demo_sha256 demo_tx_in 2%nat 0%nat
           {[ 0%nat := [Int 0x51; Int 0x76] ]} [Int 0x51; Int 0x76]
           demo_ops_never_out_of_fuel).
  - vm_compute. reflexivity.
  - reflexivity.
  - simpl. lia.
Defined.

Lemma p2wpkh_runs_witness_then_p2pkh_witness :
  let h : gmap nat (list item) := {[ 0%nat := [Int 0; Bytes zeros20] ]} in
  let items := fresh (dom h) in
  let stack := fresh (dom (<[items:=[Int 0; Bytes zeros20]]> h)) in
  evaluate demo_OP_CODE_FUNCTIONS demo_OP_CODE_NAMES demo_op_hash160
    demo_op_equal demo_sha256 2 0%nat demo_tx_in h
  = run_from demo_OP_CODE_FUNCTIONS demo_OP_CODE_NAMES demo_op_hash160
      demo_op_equal demo_sha256 0 demo_tx_in items stack
      (two_lists h items stack
         ((Bytes <$> witness_program demo_tx_in)
            ++ [Int 0x76; Int 0xa9; Bytes zeros20; Int 0x88; Int 0xac]) []).
Proof.
  apply (p2wpkh_runs_witness_then_p2pkh demo_OP_CODE_FUNCTIONS
           demo_OP_CODE_NAMES demo_op_hash160 demo_op_equal demo_sha256
           demo_tx_in 0%nat 0%nat
           {[ 0%nat := [Int 0; Bytes zeros20] ]} zeros20
           (λ st _, Ok (true, st ++ [Int 0]))).
  - vm_compute. reflexivity.
  - reflexivity.
  - reflexivity.
  - reflexivity.
Defined.


Lemma repr_names_every_opcode_witness :
  repr demo_OP_CODE_NAMES (mkScript [Bytes [x0a]; Int 0x99]) = Raise KeyError.
Proof.
  apply (proj1 (repr_names_every_opcode demo_OP_CODE_NAMES
                  (mkScript [Bytes [x0a]; Int 0x99]) (mkScript [])) KeyError).
  split; [reflexivity|]. exists 0x99. split; [|reflexivity].
  simpl. right. left. reflexivity.
Defined.

(** ** ScriptTest *)

(** [test_parse] (lines 276-282): the two items of the parsed script. *)
Example test_parse :
  ∃ script rest, parse test_script_bytes = Ok (script, rest)
    ∧ items script !! 0%nat = Some (Bytes test_script_signature)
    ∧ items script !! 1%nat = Some (Bytes test_script_sec).
Proof. eexists _, _. repeat split; reflexivity. Qed.

(** [test_serialize] (lines 284-288): parsing and serializing again gives
    the bytes back. *)
Example test_serialize :
  ∃ script rest, parse test_script_bytes = Ok (script, rest)
    ∧ serialize script = Ok test_script_bytes.
Proof. eexists _, _. split; reflexivity. Qed.

(** [test_p2sh] (lines 301-308). *)
Example test_p2sh :
  (∃ script_pubkey rest,
     parse test_p2sh_script_pubkey = Ok (script_pubkey, rest)
     ∧ serialize script_pubkey = Ok test_p2sh_script_pubkey)
  ∧ (∃ script_sig rest,
       parse test_p2sh_script_sig = Ok (script_sig, rest)
       ∧ serialize script_sig = Ok test_p2sh_script_sig).
Proof. split; eexists _, _; split; reflexivity. Qed.

(** The text of the p2sh script of the tests, with the names of the small
    table. *)
Example repr_p2sh :
  (s ← (script ← parse test_p2sh_script_pubkey;
        Ok script.1);
   repr demo_OP_CODE_NAMES s)
  = Ok "OP 74d691da1574e6b3c192ecfb52cc8984ee7b6c56 OP "%string.
Proof. reflexivity. Qed.
